(** * Player connection lifecycle parser

    A shallow embedding of [ConnectionLifecycleParser]
    (bot/parsers/connection_parser.py) and the properties of its live
    counts.

    The Python object holds two dictionaries keyed by server key.  The
    dictionaries of counters are mutable objects that are updated in
    place and copied by [get_live_counts]; they live in an explicit
    heap so that a copy and the original are different objects.  The
    four compiled regular expressions are embedded as terms of a small
    backtracking matcher, so that every definition below runs on
    concrete log lines. *)

From Stdlib Require Import ZArith NArith Ascii String.
From stdpp Require Import base option gmap strings list.
From stdpp Require Import pretty.

Local Open Scope Z_scope.

(** ** Regular expressions

    The fragment of Python's [re] that the four patterns use: literal
    characters, character classes, greedy [*], [+] and [?] on a single
    class, concatenation, alternation and numbered capture groups.
    Log lines are read as strings of ASCII characters; the classes
    [\w], [\s] and [.] are the ones Python has on that range. *)

Module Re.

Definition code (c : ascii) : N := N_of_ascii c.

Definition between (lo hi : N) (c : ascii) : bool :=
  ((lo <=? code c) && (code c <=? hi))%N.

(** [\w] *)
Definition word (c : ascii) : bool :=
  between 48 57 c || between 65 90 c || between 97 122 c
  || (code c =? 95)%N.

(** [\s]: tab, line feed, vertical tab, form feed, carriage return,
    the four separators 28-31, and space. *)
Definition space (c : ascii) : bool :=
  between 9 13 c || between 28 31 c || (code c =? 32)%N.

(** [.] without DOTALL: anything but a line feed. *)
Definition dot (c : ascii) : bool := negb (code c =? 10)%N.

(** [[^&\s]] *)
Definition not_amp_space (c : ascii) : bool :=
  negb ((code c =? 38)%N || space c).

Definition lower (c : ascii) : ascii :=
  if between 65 90 c then ascii_of_N (code c + 32) else c.

(** A literal character under [re.IGNORECASE]. *)
Definition chr (a : ascii) (c : ascii) : bool :=
  (code (lower a) =? code (lower c))%N.

Inductive regex : Type :=
| Empty
| Set_ (p : ascii → bool)
| Star (p : ascii → bool)
| Opt (p : ascii → bool)
| Cat (r1 r2 : regex)
| Alt (r1 r2 : regex)
| Group (n : nat) (r : regex).

Definition Plus (p : ascii → bool) : regex := Cat (Set_ p) (Star p).

Fixpoint lit (s : string) : regex :=
  match s with
  | EmptyString => Empty
  | String a s' => Cat (Set_ (chr a)) (lit s')
  end.

Definition cat (rs : list regex) : regex := foldr Cat Empty rs.

(** Captures: group number to captured text.  A group that took no
    part in the match has no entry ([match.group(n)] is [None]). *)
Abbreviation groups := (gmap nat string).

(** The text between position [s] and the later position [s1]. *)
Definition consumed (s s1 : list ascii) : string :=
  string_of_list_ascii (take (length s - length s1) s).

(** Greedy repetition of one class: take one more character first,
    fall back to the continuation. *)
Fixpoint star {A} (p : ascii → bool) (k : list ascii → option A)
    (s : list ascii) : option A :=
  match s with
  | c :: s' =>
      if p c then
        match star p k s' with
        | Some x => Some x
        | None => k s
        end
      else k s
  | [] => k s
  end.

(** Backtracking match of [r] at the head of [s], continuing with [k]
    on the rest. *)
Fixpoint exec (r : regex) (s : list ascii) (g : groups)
    (k : list ascii → groups → option groups) : option groups :=
  match r with
  | Empty => k s g
  | Set_ p =>
      match s with
      | c :: s' => if p c then k s' g else None
      | [] => None
      end
  | Star p => star p (λ s', k s' g) s
  | Opt p =>
      match s with
      | c :: s' =>
          if p c then
            match k s' g with
            | Some x => Some x
            | None => k s g
            end
          else k s g
      | [] => k s g
      end
  | Cat r1 r2 => exec r1 s g (λ s1 g1, exec r2 s1 g1 k)
  | Alt r1 r2 =>
      match exec r1 s g k with
      | Some x => Some x
      | None => exec r2 s g k
      end
  | Group n r1 =>
      exec r1 s g (λ s1 g1, k s1 (<[n := consumed s s1]> g1))
  end.

Definition match_at (r : regex) (s : list ascii) : option groups :=
  exec r s ∅ (λ _ g, Some g).

(** [pattern.search]: the match at the leftmost position that has one. *)
Fixpoint search_from (r : regex) (s : list ascii) : option groups :=
  match match_at r s with
  | Some g => Some g
  | None =>
      match s with
      | [] => None
      | _ :: s' => search_from r s'
      end
  end.

Definition search (r : regex) (line : string) : option groups :=
  search_from r (list_ascii_of_string line).

(** [match.group(n)] *)
Definition group (m : groups) (n : nat) : option string := m !! n.

(** What a successful run of [exec] has done: [matches r s g s' g']
    says that [r] consumed the text between [s] and [s'] and turned
    the captures [g] into [g']. *)
Fixpoint matches (r : regex) (s : list ascii) (g : groups)
    (s' : list ascii) (g' : groups) : Prop :=
  match r with
  | Empty => s' = s ∧ g' = g
  | Set_ p => (∃ c, s = c :: s' ∧ p c = true) ∧ g' = g
  | Star p => (∃ pre, s = pre ++ s' ∧ Forall (λ c, p c = true) pre) ∧ g' = g
  | Opt p => (s' = s ∨ ∃ c, s = c :: s' ∧ p c = true) ∧ g' = g
  | Cat r1 r2 => ∃ s1 g1, matches r1 s g s1 g1 ∧ matches r2 s1 g1 s' g'
  | Alt r1 r2 => matches r1 s g s' g' ∨ matches r2 s g s' g'
  | Group n r1 => ∃ g1, matches r1 s g s' g1 ∧ g' = <[n := consumed s s']> g1
  end.

(** Patterns without capture groups. *)
Fixpoint plain (r : regex) : Prop :=
  match r with
  | Cat r1 r2 | Alt r1 r2 => plain r1 ∧ plain r2
  | Group _ _ => False
  | _ => True
  end.

End Re.

(** ** The four lifecycle patterns ([self.lifecycle_patterns]) *)

Module Patterns.
Import Re.

(** [LogNet: Join request: /Game/Maps/world_0/World_0\?.*\?Name=([^&\s]+).*(?:platformid=PS5:(\w+)|eosid=\|(\w+))] *)
Definition queue_join : regex :=
  cat [ lit "LogNet: Join request: /Game/Maps/world_0/World_0?";
        Star dot;
        lit "?Name=";
        Group 1 (Plus not_amp_space);
        Star dot;
        Alt (Cat (lit "platformid=PS5:") (Group 2 (Plus word)))
            (Cat (lit "eosid=|") (Group 3 (Plus word))) ].

(** [LogOnline: Warning: Player \|(\w+) successfully registered!] *)
Definition player_joined : regex :=
  cat [ lit "LogOnline: Warning: Player |";
        Group 1 (Plus word);
        lit " successfully registered!" ].

(** [UChannel::Close: Sending CloseBunch.*UniqueId: EOS:\|(\w+)] *)
Definition disconnect_post_join : regex :=
  cat [ lit "UChannel::Close: Sending CloseBunch";
        Star dot;
        lit "UniqueId: EOS:|";
        Group 1 (Plus word) ].

(** [UChannel::Close: Sending CloseBunch.*UniqueId: (?:PS5|EOS):\|?(\w+)] *)
Definition disconnect_pre_join : regex :=
  cat [ lit "UChannel::Close: Sending CloseBunch";
        Star dot;
        lit "UniqueId: ";
        Alt (lit "PS5") (lit "EOS");
        lit ":";
        Opt (chr "|");
        Group 1 (Plus word) ].

End Patterns.

(** ** Parser state *)

(** A reference to a dictionary object. *)
Abbreviation loc := positive.

(** A dictionary of counters, [Dict[str, int]]. *)
Abbreviation counts := (gmap string Z).

(** The value of [self.player_states[server_key]]: a dictionary with
    the four fixed keys below, each holding a set of player ids. *)
Record player_sets : Type := PlayerSets {
  players_queued : gset string;
  players_joined : gset string;
  players_disconnected_pre : gset string;
  players_disconnected_post : gset string
}.

(** The parser object.  [server_counts] maps a server key to a
    reference; the referenced dictionary is in [heap].  The sets of
    [player_states] never leave the object and are kept by value. *)
Record parser : Type := Parser {
  heap : gmap loc counts;
  server_counts : gmap string loc;
  player_states : gmap string player_sets
}.

(** [__init__] *)
Definition init : parser := Parser ∅ ∅ ∅.

Definition empty_sets : player_sets := PlayerSets ∅ ∅ ∅ ∅.

Definition zero_counts : counts :=
  {[ "queue_count" := 0; "player_count" := 0 ]}.

(** ** Exceptions and the monad of methods

    A method is a function of the parser state that returns a value
    or raises, and leaves a state behind in both cases. *)

Inductive exn : Type :=
| KeyError (key : string)
| InvalidRef (l : loc).

Definition M (A : Type) : Type := parser → (exn + A) * parser.

#[global] Instance M_ret : MRet M := λ A a s, (inr a, s).

#[global] Instance M_bind : MBind M := λ A B f m s,
  match m s with
  | (inr a, s') => f a s'
  | (inl e, s') => (inl e, s')
  end.

Definition raise {A} (e : exn) : M A := λ s, (inl e, s).
Definition gets {A} (f : parser → A) : M A := λ s, (inr (f s), s).
Definition modify (f : parser → parser) : M unit := λ s, (inr (), f s).

Definition set_heap (f : gmap loc counts → gmap loc counts) (s : parser) : parser :=
  Parser (f (heap s)) (server_counts s) (player_states s).
Definition set_server_counts (f : gmap string loc → gmap string loc) (s : parser) : parser :=
  Parser (heap s) (f (server_counts s)) (player_states s).
Definition set_player_states
    (f : gmap string player_sets → gmap string player_sets) (s : parser) : parser :=
  Parser (heap s) (server_counts s) (f (player_states s)).

(** A new dictionary object with the contents [d]. *)
Definition alloc (d : counts) : M loc := λ s,
  let l := fresh (dom (heap s)) in
  (inr l, set_heap <[l := d]> s).

(** The contents of a dictionary object.  Python has no dangling
    references; [InvalidRef] marks states that are not well formed. *)
Definition deref (l : loc) : M counts :=
  h ← gets heap;
  match h !! l with
  | Some d => mret d
  | None => raise (InvalidRef l)
  end.

(** [d[k] = v] on the object [l] *)
Definition setitem (l : loc) (k : string) (v : Z) : M unit :=
  d ← deref l;
  modify (set_heap <[l := <[k := v]> d]>).

(** [self.server_counts[server_key]] *)
Definition getitem_server_counts (server_key : string) : M loc :=
  sc ← gets server_counts;
  match sc !! server_key with
  | Some l => mret l
  | None => raise (KeyError server_key)
  end.

(** [self.player_states[server_key]] *)
Definition getitem_player_states (server_key : string) : M player_sets :=
  ps ← gets player_states;
  match ps !! server_key with
  | Some st => mret st
  | None => raise (KeyError server_key)
  end.

Definition add_queued (p : string) (st : player_sets) : player_sets :=
  PlayerSets ({[p]} ∪ players_queued st) (players_joined st)
    (players_disconnected_pre st) (players_disconnected_post st).
Definition add_joined (p : string) (st : player_sets) : player_sets :=
  PlayerSets (players_queued st) ({[p]} ∪ players_joined st)
    (players_disconnected_pre st) (players_disconnected_post st).
Definition add_disconnected_pre (p : string) (st : player_sets) : player_sets :=
  PlayerSets (players_queued st) (players_joined st)
    ({[p]} ∪ players_disconnected_pre st) (players_disconnected_post st).
Definition add_disconnected_post (p : string) (st : player_sets) : player_sets :=
  PlayerSets (players_queued st) (players_joined st)
    (players_disconnected_pre st) ({[p]} ∪ players_disconnected_post st).

(** [self.player_states[server_key][field].add(player_id)], with [add]
    one of the four functions above. *)
Definition states_add (add : string → player_sets → player_sets)
    (server_key player_id : string) : M unit :=
  st ← getitem_player_states server_key;
  modify (set_player_states <[server_key := add player_id st]>).

(** ** Methods *)

Definition initialize_server_tracking (server_key : string) : M unit :=
  sc ← gets server_counts;
  (if decide (server_key ∉ dom sc) then
     l ← alloc zero_counts;
     modify (set_server_counts <[server_key := l]>)
   else mret ());;
  ps ← gets player_states;
  if decide (server_key ∉ dom ps) then
    modify (set_player_states <[server_key := empty_sets]>)
  else mret ().

(** [len] of a set, as a Python integer. *)
Definition len (X : gset string) : Z := Z.of_nat (size X).

Definition queue_formula (st : player_sets) : Z :=
  Z.max 0 (len (players_queued st) - len (players_joined st)
           - len (players_disconnected_pre st)).

Definition player_formula (st : player_sets) : Z :=
  Z.max 0 (len (players_joined st) - len (players_disconnected_post st)).

(** [_update_voice_channels] renames voice channels through the
    Discord client and catches every exception of its body; it reads
    and writes nothing of the parser. *)
Definition _update_voice_channels (server_key : string)
    (player_count queue_count : Z) : M unit := mret ().

Definition _update_live_counts (server_key : string) : M unit :=
  states ← getitem_player_states server_key;
  counts ← getitem_server_counts server_key;
  let jq := len (players_queued states) in
  let j2 := len (players_joined states) in
  let d2 := len (players_disconnected_pre states) in
  let queue_count := Z.max 0 (jq - j2 - d2) in
  let d1 := len (players_disconnected_post states) in
  let player_count := Z.max 0 (j2 - d1) in
  setitem counts "queue_count" queue_count;;
  setitem counts "player_count" player_count;;
  _update_voice_channels server_key player_count queue_count.

(** [get_live_counts] returns a new dictionary object, the copy. *)
Definition get_live_counts (server_key : string) : M loc :=
  initialize_server_tracking server_key;;
  l ← getitem_server_counts server_key;
  d ← deref l;
  alloc d.

Definition reset_server_counts (server_key : string) : M unit :=
  sc ← gets server_counts;
  (if decide (server_key ∈ dom sc) then
     modify (set_server_counts (delete server_key))
   else mret ());;
  ps ← gets player_states;
  if decide (server_key ∈ dom ps) then
    modify (set_player_states (delete server_key))
  else mret ().

(** ** Notifications *)

(** The dictionary [embed_data] handed to the embed factory. *)
Record embed_data : Type := EmbedData {
  event_type : string;
  player_name : string;
  player_id : string;
  timestamp : Z;
  messages : list string
}.

(** The dictionary [{'embed': embed, 'file': file_attachment}]. *)
Record payload (Embed File : Type) : Type := Payload {
  embed : Embed;
  file : File
}.
Arguments Payload {Embed File} _ _.
Arguments embed {Embed File} _.
Arguments file {Embed File} _.

(** Truth value of an [Optional[str]]: [None] and the empty string are
    false. *)
Definition truthy (o : option string) : bool :=
  match o with
  | Some (String _ _) => true
  | _ => false
  end.

(** [a or b] on [Optional[str]] *)
Definition py_or (a b : option string) : option string :=
  if truthy a then a else b.

(** [player_name or player_id], with [player_id] a string *)
Definition name_or_id (player_name : option string) (player_id : string) : string :=
  if truthy player_name then default player_id player_name else player_id.

(** The string held by [match.group(1)] in the patterns where group 1
    lies on every path of the pattern ([group_1_takes_part] below);
    the empty string stands for a group that took no part. *)
Definition str (o : option string) : string := default EmptyString o.

(** The final values of the local variables of [parse_lifecycle_event]. *)
Record locals : Type := Locals {
  local_player_id : option string;
  local_event_type : option string;
  local_player_name : option string
}.


(** ** Views of the state of one server key *)

(** The sets tracked for a key; a key without an entry has the sets
    that [initialize_server_tracking] would create. *)
Definition sets_of (s : parser) (server_key : string) : player_sets :=
  default empty_sets (player_states s !! server_key).

(** The dictionary of counters stored for a key, if the key has one. *)
Definition stored_counts (s : parser) (server_key : string) : option counts :=
  l ← server_counts s !! server_key; heap s !! l.

(** The counters of a key; a key without an entry has the counters
    that [initialize_server_tracking] would create. *)
Definition counts_of (s : parser) (server_key : string) : counts :=
  default zero_counts (stored_counts s server_key).

(** The counters that [_update_live_counts] writes into the
    dictionary [d] for the sets [st]. *)
Definition recount (st : player_sets) (d : counts) : counts :=
  <["player_count" := player_formula st]> (<["queue_count" := queue_formula st]> d).

(** A dictionary of counters in the shape that the parser stores:
    the two keys, with values that are not negative. *)
Definition good_counts (d : counts) : Prop :=
  ∃ q p, d = {[ "queue_count" := q; "player_count" := p ]} ∧ 0 ≤ q ∧ 0 ≤ p.

(** ** Well-formed states

    Every reference held by [server_counts] points to an object, and
    no two server keys share one: [initialize_server_tracking] builds a
    new dictionary for each key. *)
Definition wf (s : parser) : Prop :=
  (∀ k l, server_counts s !! k = Some l → is_Some (heap s !! l))
  ∧ (∀ k1 k2 l, server_counts s !! k1 = Some l →
       server_counts s !! k2 = Some l → k1 = k2).

(** The key has an entry in both dictionaries. *)
Definition tracked (s : parser) (server_key : string) : Prop :=
  is_Some (server_counts s !! server_key)
  ∧ is_Some (player_states s !! server_key).

(** Everything stored for the keys other than [server_key] is the same
    in [s] and [s']. *)
Definition frame (server_key : string) (s s' : parser) : Prop :=
  ∀ k, k ≠ server_key →
    player_states s' !! k = player_states s !! k
    ∧ server_counts s' !! k = server_counts s !! k
    ∧ stored_counts s' k = stored_counts s k.

Section Parser.

(** [EmbedFactory.build] belongs to bot/utils/embed_factory.py, which
    is outside the parser; it is a parameter, a function of the
    template name and the data that returns the embed and its file. *)
Context {Embed File : Type}.
Variable EmbedFactory_build : string → embed_data → Embed * File.

(** The result of [EmbedFactory.build], packed as the dictionary
    that the two [_create_*_embed] methods return. *)
Definition built (template : string) (data : embed_data) : payload Embed File :=
  let r := EmbedFactory_build template data in
  Payload r.1 r.2.

(** [now] is the value of [datetime.now(timezone.utc)] at the call. *)
Definition join_embed_data (now : Z) (player_id : string)
    (player_name : option string) : embed_data :=
  let who := name_or_id player_name player_id in
  EmbedData "player_join" who player_id now
    [ "🎮 " +:+ who +:+ " joined the server!";
      "🌟 Welcome " +:+ who +:+ " to the battlefield!";
      "⚔️ " +:+ who +:+ " has entered the game!";
      "🎯 " +:+ who +:+ " is ready for action!" ].

Definition _create_join_embed (now : Z) (player_id : string)
    (player_name : option string) : M (payload Embed File) :=
  let embed_data := join_embed_data now player_id player_name in
  mret (built "player_join" embed_data).

Definition leave_embed_data (now : Z) (player_id : string)
    (player_name : option string) : embed_data :=
  let who := name_or_id player_name player_id in
  EmbedData "player_leave" who player_id now
    [ "👋 " +:+ who +:+ " left the server";
      "🚪 " +:+ who +:+ " disconnected from the battlefield";
      "⏰ " +:+ who +:+ " has ended their session";
      "🔚 " +:+ who +:+ " signed off" ].

Definition _create_leave_embed (now : Z) (player_id : string)
    (player_name : option string) : M (payload Embed File) :=
  let embed_data := leave_embed_data now player_id player_name in
  mret (built "player_leave" embed_data).

(** [parse_lifecycle_event], returning next to its result the final
    values of its local variables. *)
Definition parse_lifecycle_event_locals (now : Z) (line server_key : string)
    (guild_id : Z) : M (locals * option (payload Embed File)) :=
  initialize_server_tracking server_key;;
  match Re.search Patterns.queue_join line with
  | Some m =>
      let player_name := Re.group m 1 in
      let player_id := py_or (Re.group m 2) (Re.group m 3) in
      (if truthy player_id then
         states_add add_queued server_key (str player_id);;
         _update_live_counts server_key
       else mret ());;
      mret (Locals player_id (Some "jq") player_name, None)
  | None =>
  match Re.search Patterns.player_joined line with
  | Some m =>
      let player_id := Re.group m 1 in
      states_add add_joined server_key (str player_id);;
      _update_live_counts server_key;;
      e ← _create_join_embed now (str player_id) None;
      mret (Locals player_id (Some "j2") None, Some e)
  | None =>
  match Re.search Patterns.disconnect_post_join line with
  | Some m =>
      let player_id := Re.group m 1 in
      st ← getitem_player_states server_key;
      if decide (str player_id ∈ players_joined st) then
        states_add add_disconnected_post server_key (str player_id);;
        e ← _create_leave_embed now (str player_id) None;
        mret (Locals player_id (Some "d1") None, Some e)
      else
        st ← getitem_player_states server_key;
        event_type ←
          (if decide (str player_id ∈ players_queued st) then
             states_add add_disconnected_pre server_key (str player_id);;
             mret (Some "d2")
           else mret None);
        _update_live_counts server_key;;
        mret (Locals player_id event_type None, None)
  | None =>
  match Re.search Patterns.disconnect_pre_join line with
  | Some m =>
      let player_id := Re.group m 1 in
      (* both operands of [and] read the same entry of [player_states] *)
      st ← getitem_player_states server_key;
      if decide (str player_id ∈ players_queued st
                 ∧ str player_id ∉ players_joined st) then
        states_add add_disconnected_pre server_key (str player_id);;
        _update_live_counts server_key;;
        mret (Locals player_id (Some "d2") None, None)
      else mret (Locals player_id None None, None)
  | None => mret (Locals None None None, None)
  end end end end.

Definition parse_lifecycle_event (now : Z) (line server_key : string)
    (guild_id : Z) : M (option (payload Embed File)) :=
  r ← parse_lifecycle_event_locals now line server_key guild_id;
  mret (r.2).

(** ** The transition of one server key

    What [parse_lifecycle_event] computes from the sets [v.1] and
    the counters [v.2] of its server key: the values of the local
    variables, the result, and the new sets and counters.
    [parse_lifecycle_event_spec] below relates it to the method. *)
Definition transition (now : Z) (line : string) (v : player_sets * counts)
    : (locals * option (payload Embed File)) * (player_sets * counts) :=
  match Re.search Patterns.queue_join line with
  | Some m =>
      let player_id := py_or (Re.group m 2) (Re.group m 3) in
      ((Locals player_id (Some "jq") (Re.group m 1), None),
       if truthy player_id then
         let st := add_queued (str player_id) v.1 in (st, recount st v.2)
       else v)
  | None =>
  match Re.search Patterns.player_joined line with
  | Some m =>
      let player_id := Re.group m 1 in
      let st := add_joined (str player_id) v.1 in
      ((Locals player_id (Some "j2") None,
        Some (built "player_join" (join_embed_data now (str player_id) None))),
       (st, recount st v.2))
  | None =>
  match Re.search Patterns.disconnect_post_join line with
  | Some m =>
      let player_id := Re.group m 1 in
      if decide (str player_id ∈ players_joined v.1) then
        ((Locals player_id (Some "d1") None,
          Some (built "player_leave" (leave_embed_data now (str player_id) None))),
         (add_disconnected_post (str player_id) v.1, v.2))
      else if decide (str player_id ∈ players_queued v.1) then
        let st := add_disconnected_pre (str player_id) v.1 in
        ((Locals player_id (Some "d2") None, None), (st, recount st v.2))
      else
        ((Locals player_id None None, None), (v.1, recount v.1 v.2))
  | None =>
  match Re.search Patterns.disconnect_pre_join line with
  | Some m =>
      let player_id := Re.group m 1 in
      if decide (str player_id ∈ players_queued v.1
                 ∧ str player_id ∉ players_joined v.1) then
        let st := add_disconnected_pre (str player_id) v.1 in
        ((Locals player_id (Some "d2") None, None), (st, recount st v.2))
      else ((Locals player_id None None, None), v)
  | None => ((Locals None None None, None), v)
  end end end end.

(** ** Sequences of calls *)

Inductive call : Type :=
| Parse (now : Z) (line server_key : string) (guild_id : Z)
| GetLiveCounts (server_key : string)
| ResetServerCounts (server_key : string).

(** The state a call leaves behind. *)
Definition run_call (c : call) (s : parser) : parser :=
  match c with
  | Parse now line server_key guild_id =>
      (parse_lifecycle_event now line server_key guild_id s).2
  | GetLiveCounts server_key => (get_live_counts server_key s).2
  | ResetServerCounts server_key => (reset_server_counts server_key s).2
  end.

Definition run (cs : list call) (s : parser) : parser :=
  foldl (λ s c, run_call c s) s cs.

End Parser.

(** ** Sample log lines *)

Module Sample.

Definition server : string := "42_emerald".

Definition queue_A : string :=
  "LogNet: Join request: /Game/Maps/world_0/World_0?logintype=eos?Name=Alice?eosid=|000A".
Definition queue_B : string :=
  "LogNet: Join request: /Game/Maps/world_0/World_0?logintype=eos?Name=Bob?eosid=|000B".
Definition joined_A : string :=
  "LogOnline: Warning: Player |000A successfully registered!".
Definition close_A : string :=
  "UChannel::Close: Sending CloseBunch. ChIndex == 0. UniqueId: EOS:|000A".
Definition close_B : string :=
  "UChannel::Close: Sending CloseBunch. ChIndex == 0. UniqueId: EOS:|000B".

(** An embed factory that builds nothing. *)
Definition factory : string → embed_data → unit * unit := λ _ _, ((), ()).

Definition parse_line (line : string) : call :=
  Parse 0 line server 42.

(** Alice and Bob queued, Alice registered. *)
Definition s3 : parser :=
  run factory [parse_line queue_A; parse_line queue_B; parse_line joined_A] init.

(** Alice queued and registered. *)
Definition s2 : parser :=
  run factory [parse_line queue_A; parse_line joined_A] init.

(** Bob queued. *)
Definition s1 : parser := run factory [parse_line queue_B] init.

(** Another server key. *)
Definition other : string := "7_ruby".

End Sample.

(** * Further definitions *)

(** ** Identifiers *)

(** A non-empty string of [\w] characters: what the groups [(\w+)] of
    the four patterns capture. *)
Definition word_id (p : string) : bool :=
  match p with
  | EmptyString => false
  | _ => forallb Re.word (list_ascii_of_string p)
  end.


(** ** Record shapes of the log *)

(** No character of [s] is the letter [a], in either case. *)
Definition without (a : ascii) (s : string) : bool :=
  forallb (λ c, negb (Re.chr a c)) (list_ascii_of_string s).

(** No line feed in [s]. *)
Definition one_line (s : string) : bool :=
  forallb Re.dot (list_ascii_of_string s).

(** The registration record of the player [id]. *)
Definition registered_record (id : string) : string :=
  "LogOnline: Warning: Player |" +:+ id +:+ " successfully registered!".

(** A channel-close record that ends with the EOS id [id]; [mid] is
    the text between the head of the record and the id field. *)
Definition close_record (mid id : string) : string :=
  "UChannel::Close: Sending CloseBunch" +:+ mid +:+ "UniqueId: EOS:|" +:+ id.

(** None of the characters of [cs] occurs in [s], in either case. *)
Definition free_of (cs s : string) : bool :=
  forallb (λ a, without a s) (list_ascii_of_string cs).

(** A channel-close record that ends with the PS5 id [id]. *)
Definition ps5_close_record (mid id : string) : string :=
  "UChannel::Close: Sending CloseBunch" +:+ mid +:+ "UniqueId: PS5:" +:+ id.

(** ** Voice channels

    [_update_voice_channels] works on the Discord client, which is
    outside the parser.  What it asks of the client is modelled here:
    the calls of [channel.edit], in order.  The client is a function
    from guild ids to the names of the guild's voice channels
    ([bot.get_guild(id).voice_channels], [None] for an unknown guild),
    and [edit_ok i] tells whether the call of [edit] on the channel at
    index [i] returns; when it raises, the [except] clause of the
    method ends the loop.  Strings are ASCII, as for the patterns. *)

(** [str.lower] *)
Fixpoint lower_string (s : string) : string :=
  match s with
  | EmptyString => EmptyString
  | String c s' => String (Re.lower c) (lower_string s')
  end.

(** [needle in hay] *)
Fixpoint contains (needle hay : string) : bool :=
  String.prefix needle hay
  || match hay with
     | EmptyString => false
     | String _ hay' => contains needle hay'
     end.

(** [s.split('_')[0]]: the text before the first underscore. *)
Fixpoint first_field (s : string) : string :=
  match s with
  | EmptyString => EmptyString
  | String c s' => if Ascii.eqb c "_" then EmptyString else String c (first_field s')
  end.

Definition is_digit (c : ascii) : bool := Re.between 48 57 c.

Definition digit_value (c : ascii) : N := (Re.code c - 48)%N.

(** The digits of a decimal literal after its first digit, with single
    underscores between digits. *)
Fixpoint digits_from (acc : N) (s : list ascii) : option N :=
  match s with
  | [] => Some acc
  | c :: s' =>
      if is_digit c then digits_from (10 * acc + digit_value c) s'
      else if Ascii.eqb c "_" then
        match s' with
        | d :: _ => if is_digit d then digits_from acc s' else None
        | [] => None
        end
      else None
  end.

Definition digits (s : list ascii) : option N :=
  match s with
  | c :: _ => if is_digit c then digits_from 0 s else None
  | [] => None
  end.

Fixpoint lstrip (s : list ascii) : list ascii :=
  match s with
  | c :: s' => if Re.space c then lstrip s' else s
  | [] => []
  end.

Definition strip (s : list ascii) : list ascii :=
  rev (lstrip (rev (lstrip s))).

(** [int(s)] for a string: surrounding white space, an optional sign,
    decimal digits; [None] stands for [ValueError].  The limit that
    recent interpreters put on the number of digits is not modelled. *)
Definition py_int (s : string) : option Z :=
  match strip (list_ascii_of_string s) with
  | "+"%char :: ds => Z.of_N <$> digits ds
  | "-"%char :: ds => (λ n, - Z.of_N n) <$> digits ds
  | ds => Z.of_N <$> digits ds
  end.

(** [f"Players: {player_count} / Queue: {queue_count}"] *)
Definition label (player_count queue_count : Z) : string :=
  "Players: " +:+ pretty player_count +:+ " / Queue: " +:+ pretty queue_count.

(** The condition under which the loop looks at a channel. *)
Definition shows_counts (name : string) : bool :=
  contains "players:" (lower_string name) || contains "queue:" (lower_string name).

(** The loop over [guild.voice_channels], from the channel at index
    [i] on: the calls of [channel.edit(name=new_name)], each with the
    index of its channel. *)
Fixpoint rename_from (edit_ok : nat → bool) (new_name : string) (i : nat)
    (names : list string) : list (nat * string) :=
  match names with
  | [] => []
  | name :: rest =>
      if shows_counts name then
        if decide (name ≠ new_name) then
          (i, new_name)
          :: (if edit_ok i then rename_from edit_ok new_name (S i) rest else [])
        else rename_from edit_ok new_name (S i) rest
      else rename_from edit_ok new_name (S i) rest
  end.

(** The calls of [channel.edit] that
    [_update_voice_channels(server_key, player_count, queue_count)]
    makes. *)
Definition voice_channel_edits (get_guild : Z → option (list string))
    (edit_ok : nat → bool) (server_key : string)
    (player_count queue_count : Z) : list (nat * string) :=
  match py_int (first_field server_key) with
  | None => []
  | Some guild_id =>
      match get_guild guild_id with
      | None => []
      | Some names =>
          rename_from edit_ok (label player_count queue_count) 0 names
      end
  end.


(** ** A sample guild *)

Module Guild.

(** The voice channels of the guild 42. *)
Definition names : list string :=
  [ "General"; "Players: 0 / Queue: 0"; "queue: ?"; "Players: 3 / Queue: 1" ].

(** The client knows the guild 42 only. *)
Definition get_guild (guild_id : Z) : option (list string) :=
  if decide (guild_id = 42) then Some names else None.

End Guild.

(** ** Automation *)

(** Unfolds the monad and the state updates. *)
Ltac mred :=
  unfold mbind, M_bind, mret, M_ret, gets, modify, raise, alloc,
    set_heap, set_server_counts, set_player_states; simpl.

(** * Properties *)

(** ** The matcher *)

Section ReFacts.
Import Re.

Lemma star_sound {A} p (k : list ascii → option A) s x :
  star p k s = Some x →
  ∃ pre s', s = pre ++ s' ∧ Forall (λ c, p c = true) pre ∧ k s' = Some x.
Proof.
  induction s as [|c s IH]; simpl.
  - intros H. exists [], []. auto.
  - destruct (p c) eqn:Hp.
    + destruct (star p k s) as [y|] eqn:Hs.
      * intros [= ->]. destruct (IH eq_refl) as (pre & s' & -> & Hall & Hk).
        exists (c :: pre), s'. auto.
      * intros H. exists [], (c :: s). auto.
    + intros H. exists [], (c :: s). auto.
Qed.

(** A successful run of [exec] is a match in the sense of [matches],
    and the result is the one of the continuation on what is left. *)
Lemma exec_sound r : ∀ s g k x,
  exec r s g k = Some x →
  ∃ s' g', matches r s g s' g' ∧ k s' g' = Some x.
Proof.
  induction r as [|p|p|p|r1 IH1 r2 IH2|r1 IH1 r2 IH2|n r IH];
    intros s g k x; simpl.
  - intros H. by exists s, g.
  - destruct s as [|c s]; [done|]. destruct (p c) eqn:Hp; [|done].
    intros H. exists s, g. by eauto.
  - intros H. apply star_sound in H as (pre & s' & -> & Hall & Hk).
    exists s', g. by eauto.
  - assert (k s g = Some x →
            ∃ s' g', ((s' = s ∨ ∃ c, s = c :: s' ∧ p c = true) ∧ g' = g)
                     ∧ k s' g' = Some x)
      as Hskip by (intros H; exists s, g; auto).
    destruct s as [|c s]; [done|].
    destruct (p c) eqn:Hp; [|done].
    destruct (k s g) as [y|] eqn:Hk; [|done].
    intros [= ->]. exists s, g. by eauto 8.
  - intros H. apply IH1 in H as (s1 & g1 & H1 & H).
    apply IH2 in H as (s2 & g2 & H2 & H). by eauto 8.
  - destruct (exec r1 s g k) as [y|] eqn:H1.
    + intros [= ->]. apply IH1 in H1 as (s' & g' & ? & ?). by eauto.
    + intros H. apply IH2 in H as (s' & g' & ? & ?). by eauto.
  - intros H. apply IH in H as (s' & g' & ? & ?).
    exists s', (<[n := consumed s s']> g'). by eauto.
Qed.

Lemma plain_groups r : ∀ s g s' g',
  plain r → matches r s g s' g' → g' = g.
Proof.
  induction r as [|p|p|p|r1 IH1 r2 IH2|r1 IH1 r2 IH2|n r IH];
    intros s g s' g'; simpl; try tauto.
  - intros [P1 P2] (s1 & g1 & H1 & H2).
    rewrite (IH2 _ _ _ _ P2 H2). eauto.
  - intros [P1 P2] [H|H]; eauto.
Qed.

Lemma plain_lit str : plain (lit str).
Proof. induction str; simpl; auto. Qed.

Lemma consumed_app pre s' : consumed (pre ++ s') s' = string_of_list_ascii pre.
Proof.
  unfold consumed. rewrite length_app.
  replace (length pre + length s' - length s')%nat with (length pre) by lia.
  by rewrite take_app_length.
Qed.




End ReFacts.

(** ** The monad and the primitive operations *)

Lemma bind_inr {A B} (m : M A) (f : A → M B) s a s' :
  m s = (inr a, s') → (m ≫= f) s = f a s'.
Proof. unfold mbind, M_bind. by intros ->. Qed.

Lemma getitem_player_states_eq k s st :
  player_states s !! k = Some st → getitem_player_states k s = (inr st, s).
Proof. intros H. unfold getitem_player_states. mred. by rewrite H. Qed.

Lemma getitem_server_counts_eq k s l :
  server_counts s !! k = Some l → getitem_server_counts k s = (inr l, s).
Proof. intros H. unfold getitem_server_counts. mred. by rewrite H. Qed.

Lemma deref_eq l s d : heap s !! l = Some d → deref l s = (inr d, s).
Proof. intros H. unfold deref. mred. by rewrite H. Qed.

Lemma setitem_eq l k v s d :
  heap s !! l = Some d →
  setitem l k v s = (inr (), set_heap <[l := <[k := v]> d]> s).
Proof.
  intros H. unfold setitem. by rewrite (bind_inr _ _ _ _ _ (deref_eq _ _ _ H)).
Qed.

Lemma states_add_eq add k p s st :
  player_states s !! k = Some st →
  states_add add k p s = (inr (), set_player_states <[k := add p st]> s).
Proof.
  intros H. unfold states_add.
  by rewrite (bind_inr _ _ _ _ _ (getitem_player_states_eq _ _ _ H)).
Qed.

Lemma _update_live_counts_eq k s st l d :
  player_states s !! k = Some st →
  server_counts s !! k = Some l →
  heap s !! l = Some d →
  _update_live_counts k s = (inr (), set_heap <[l := recount st d]> s).
Proof.
  intros Hst Hl Hd. unfold _update_live_counts.
  rewrite (bind_inr _ _ _ _ _ (getitem_player_states_eq _ _ _ Hst)).
  rewrite (bind_inr _ _ _ _ _ (getitem_server_counts_eq _ _ _ Hl)).
  cbv zeta.
  rewrite (bind_inr _ _ _ _ _ (setitem_eq _ _ _ _ _ Hd)).
  erewrite bind_inr; last by (apply setitem_eq; simpl; apply lookup_insert_eq).
  unfold _update_voice_channels, mret, M_ret, set_heap; simpl.
  by rewrite insert_insert_eq.
Qed.

(** ** Lazy initialisation *)

Lemma stored_counts_None s k :
  server_counts s !! k = None → stored_counts s k = None.
Proof. unfold stored_counts. by intros ->. Qed.

Lemma stored_counts_Some s k l :
  server_counts s !! k = Some l → stored_counts s k = heap s !! l.
Proof. unfold stored_counts. by intros ->. Qed.

Lemma fresh_heap (h : gmap loc counts) : h !! fresh (dom h) = None.
Proof. apply not_elem_of_dom, is_fresh. Qed.

(** Storing a new object under a key that has none. *)
Lemma wf_alloc h sc ps k d :
  wf (Parser h sc ps) → sc !! k = None →
  wf (Parser (<[fresh (dom h) := d]> h) (<[k := fresh (dom h)]> sc) ps).
Proof.
  intros [Hal Hinj] Hk. pose proof (fresh_heap h) as Hf.
  assert (∀ k', sc !! k' ≠ Some (fresh (dom h))) as Hnew.
  { intros k' Hk'. apply Hal in Hk' as [d' Hd']. simpl in Hd'. congruence. }
  split; simpl.
  - intros k' l'. rewrite lookup_insert. case_decide as E.
    + intros [= <-]. rewrite lookup_insert_eq. eauto.
    + intros Hl'. rewrite lookup_insert_ne; [by eapply Hal|].
      intros <-. by eapply Hnew.
  - intros k1 k2 l'. rewrite !lookup_insert.
    repeat case_decide; subst; try done.
    + intros [= <-] H2. by apply Hnew in H2.
    + intros H1 [= <-]. by apply Hnew in H1.
    + apply Hinj.
Qed.

Lemma wf_set_player_states f s : wf s → wf (set_player_states f s).
Proof. by intros [??]. Qed.

(** Overwriting the object of a key. *)
Lemma wf_set_heap s l d :
  wf s → wf (set_heap <[l := d]> s).
Proof.
  intros [Hal Hinj]. split; simpl; [|done].
  intros k' l' Hl'. rewrite lookup_insert. case_decide; [eauto|].
  by eapply Hal.
Qed.

Lemma initialize_server_tracking_spec k s :
  wf s →
  ∃ s0 l,
    initialize_server_tracking k s = (inr (), s0)
    ∧ wf s0
    ∧ server_counts s0 !! k = Some l
    ∧ heap s0 !! l = Some (counts_of s k)
    ∧ player_states s0 !! k = Some (sets_of s k)
    ∧ frame k s s0
    ∧ (tracked s k → s0 = s).
Proof.
  destruct s as [h sc ps]. intros Hwf.
  unfold initialize_server_tracking, counts_of, sets_of, tracked, frame.
  mred.
  assert (∀ ps' : gmap string player_sets,
    (∀ k', k' ≠ k → ps' !! k' = ps !! k') →
    ∀ k', k' ≠ k →
      ps' !! k' = ps !! k'
      ∧ <[k := fresh (dom h)]> sc !! k' = sc !! k'
      ∧ stored_counts (Parser (<[fresh (dom h) := zero_counts]> h)
                         (<[k := fresh (dom h)]> sc) ps') k'
        = stored_counts (Parser h sc ps) k') as Hfr1.
  { intros ps' Hps k' Hk'. split; [by apply Hps|].
    rewrite lookup_insert_ne by done. split; [done|].
    unfold stored_counts; simpl. rewrite lookup_insert_ne by done.
    destruct (sc !! k') as [l'|] eqn:El'; [simpl|done].
    rewrite lookup_insert_ne; [done|].
    intros <-. destruct Hwf as [Hal _]. apply Hal in El' as [d' Hd'].
    simpl in Hd'. rewrite fresh_heap in Hd'. done. }
  destruct (decide (k ∉ dom sc)) as [Hsc|Hsc]; simpl.
  - apply not_elem_of_dom in Hsc.
    rewrite (stored_counts_None (Parser h sc ps) k Hsc). simpl.
    destruct (decide (k ∉ dom ps)) as [Hps|Hps]; simpl.
    + apply not_elem_of_dom in Hps. rewrite Hps. simpl.
      eexists _, _. split_and!; simpl; try done.
      * by apply (wf_alloc h sc _ k zero_counts).
      * apply lookup_insert_eq.
      * apply lookup_insert_eq.
      * apply lookup_insert_eq.
      * apply Hfr1. intros k'' ?. by rewrite lookup_insert_ne.
      * intros [[? Hc] _]. simpl in Hc. congruence.
    + apply dec_stable in Hps. apply elem_of_dom in Hps as [st Hst].
      rewrite Hst. simpl.
      eexists _, _. split_and!; simpl; try done.
      * by apply (wf_alloc h sc _ k zero_counts).
      * apply lookup_insert_eq.
      * apply lookup_insert_eq.
      * by apply Hfr1.
      * intros [[? Hc] _]. simpl in Hc. congruence.
  - apply dec_stable in Hsc. apply elem_of_dom in Hsc as [l Hl].
    destruct (proj1 Hwf k l Hl) as [d Hd]. simpl in Hd.
    rewrite (stored_counts_Some (Parser h sc ps) k l Hl). simpl. rewrite Hd. simpl.
    destruct (decide (k ∉ dom ps)) as [Hps|Hps]; simpl.
    + apply not_elem_of_dom in Hps. rewrite Hps. simpl.
      eexists _, _. split_and!; simpl; try done.
      * apply lookup_insert_eq.
      * intros k' Hk'. simpl. by rewrite lookup_insert_ne.
      * intros [_ [? Hc]]. simpl in Hc. congruence.
    + apply dec_stable in Hps. apply elem_of_dom in Hps as [st Hst].
      rewrite Hst. simpl.
      eexists _, _. split_and!; simpl; done.
Qed.

Lemma parser_insert_id s l d k st :
  heap s !! l = Some d → player_states s !! k = Some st →
  Parser (<[l := d]> (heap s)) (server_counts s) (<[k := st]> (player_states s)) = s.
Proof. intros Hd Hst. rewrite !insert_id by done. by destruct s. Qed.

(** ** The method and the transition of its key *)

Section ParserFacts.

Context {Embed File : Type}.
Variable build : string → embed_data → Embed * File.

Local Abbreviation parse_locals := (parse_lifecycle_event_locals build).
Local Abbreviation parse := (parse_lifecycle_event build).
Local Abbreviation step := (transition build).

(** The state after the call: the state after the lazy initialisation,
    with the sets and the counters of the key replaced by those of
    the transition. *)
Lemma parse_lifecycle_event_spec now line k gid s :
  wf s →
  ∃ s0 l,
    initialize_server_tracking k s = (inr (), s0)
    ∧ server_counts s0 !! k = Some l
    ∧ parse_locals now line k gid s =
        (inr (step now line (sets_of s k, counts_of s k)).1,
         Parser (<[l := (step now line (sets_of s k, counts_of s k)).2.2]> (heap s0))
                (server_counts s0)
                (<[k := (step now line (sets_of s k, counts_of s k)).2.1]>
                   (player_states s0))).
Proof.
  intros Hwf.
  destruct (initialize_server_tracking_spec k s Hwf)
    as (s0 & l & Hinit & Hwf0 & Hl & Hd & Hst & _ & _).
  exists s0, l. split; [done|]. split; [done|].
  set (st := sets_of s k) in *. set (d := counts_of s k) in *.
  unfold parse_lifecycle_event_locals, transition.
  rewrite (bind_inr _ _ _ _ _ Hinit).
  assert (∀ add p, ∃ s1,
    states_add add k p s0 = (inr (), s1)
    ∧ _update_live_counts k s1
      = (inr (), Parser (<[l := recount (add p st) d]> (heap s0)) (server_counts s0)
                        (<[k := add p st]> (player_states s0)))) as Hadd.
  { intros add p. eexists. split; [by apply states_add_eq|].
    erewrite _update_live_counts_eq; [done| | |]; simpl; [|done..].
    apply lookup_insert_eq. }
  destruct (Re.search Patterns.queue_join line) as [m1|]; simpl.
  { destruct (truthy (py_or (Re.group m1 2) (Re.group m1 3))).
    - destruct (Hadd add_queued (str (py_or (Re.group m1 2) (Re.group m1 3))))
        as (s1 & Hs & Hu).
      rewrite (bind_inr _ _ _ _ _ (eq_trans (bind_inr _ _ _ _ _ Hs) Hu)).
      done.
    - mred. by rewrite parser_insert_id. }
  destruct (Re.search Patterns.player_joined line) as [m2|]; simpl.
  { destruct (Hadd add_joined (str (Re.group m2 1))) as (s1 & Hs & Hu).
    by rewrite (bind_inr _ _ _ _ _ Hs), (bind_inr _ _ _ _ _ Hu). }
  destruct (Re.search Patterns.disconnect_post_join line) as [m3|]; simpl.
  { rewrite (bind_inr _ _ _ _ _ (getitem_player_states_eq k s0 st Hst)).
    destruct (decide (str (Re.group m3 1) ∈ players_joined st)); simpl.
    - rewrite (bind_inr _ _ _ _ _ (states_add_eq _ k _ s0 st Hst)).
      mred. by rewrite (insert_id (heap s0)).
    - rewrite (bind_inr _ _ _ _ _ (getitem_player_states_eq k s0 st Hst)).
      destruct (decide (str (Re.group m3 1) ∈ players_queued st)); simpl.
      + destruct (Hadd add_disconnected_pre (str (Re.group m3 1)))
          as (s1 & Hs & Hu).
        rewrite (bind_inr _ _ _ _ _ (bind_inr _ _ _ _ _ Hs)).
        by rewrite (bind_inr _ _ _ _ _ Hu).
      + rewrite (bind_inr _ _ s0 None s0) by done.
        rewrite (bind_inr _ _ _ _ _ (_update_live_counts_eq k s0 st l d Hst Hl Hd)).
        mred. by rewrite (insert_id (player_states s0)). }
  destruct (Re.search Patterns.disconnect_pre_join line) as [m4|]; simpl.
  { rewrite (bind_inr _ _ _ _ _ (getitem_player_states_eq k s0 st Hst)).
    destruct (decide (str (Re.group m4 1) ∈ players_queued st
                      ∧ str (Re.group m4 1) ∉ players_joined st)); simpl.
    - destruct (Hadd add_disconnected_pre (str (Re.group m4 1)))
        as (s1 & Hs & Hu).
      by rewrite (bind_inr _ _ _ _ _ Hs), (bind_inr _ _ _ _ _ Hu).
    - mred. by rewrite parser_insert_id. }
  mred. by rewrite parser_insert_id.
Qed.

End ParserFacts.

Section CallFacts.

Context {Embed File : Type}.
Variable build : string → embed_data → Embed * File.

Local Abbreviation parse_locals := (parse_lifecycle_event_locals build).
Local Abbreviation parse := (parse_lifecycle_event build).
Local Abbreviation step := (transition build).

Lemma sets_of_Some s k st : player_states s !! k = Some st → sets_of s k = st.
Proof. unfold sets_of. by intros ->. Qed.

Lemma counts_of_Some s k d : stored_counts s k = Some d → counts_of s k = d.
Proof. unfold counts_of. by intros ->. Qed.

Lemma frame_trans k s1 s2 s3 : frame k s1 s2 → frame k s2 s3 → frame k s1 s3.
Proof.
  intros H12 H23 k' Hk'.
  destruct (H12 k' Hk') as (E1 & E2 & E3).
  destruct (H23 k' Hk') as (F1 & F2 & F3).
  by rewrite F1, F2, F3.
Qed.

(** What one call of [parse_lifecycle_event] does to a well-formed
    state, in terms of the transition of its key. *)
Lemma parse_locals_facts now line k gid s :
  wf s →
  ∃ s',
    parse_locals now line k gid s
      = (inr (step now line (sets_of s k, counts_of s k)).1, s')
    ∧ wf s'
    ∧ player_states s' !! k = Some (step now line (sets_of s k, counts_of s k)).2.1
    ∧ stored_counts s' k = Some (step now line (sets_of s k, counts_of s k)).2.2
    ∧ is_Some (server_counts s' !! k)
    ∧ frame k s s'
    ∧ (tracked s k →
       (step now line (sets_of s k, counts_of s k)).2 = (sets_of s k, counts_of s k) →
       s' = s).
Proof.
  intros Hwf.
  destruct (parse_lifecycle_event_spec build now line k gid s Hwf)
    as (s0 & l & Hinit & Hl & Hparse).
  destruct (initialize_server_tracking_spec k s Hwf)
    as (s0' & l' & Hinit' & Hwf0 & Hl' & Hd & Hst & Hfr & Hid).
  rewrite Hinit in Hinit'. injection Hinit' as <-.
  rewrite Hl in Hl'. injection Hl' as <-.
  eexists. split; [exact Hparse|].
  set (t := step now line (sets_of s k, counts_of s k)) in *.
  split_and!.
  - exact (wf_set_player_states <[k := t.2.1]> _ (wf_set_heap s0 l t.2.2 Hwf0)).
  - apply lookup_insert_eq.
  - unfold stored_counts; simpl. rewrite Hl. simpl. apply lookup_insert_eq.
  - eauto.
  - eapply frame_trans; [exact Hfr|].
    intros k' Hk'. simpl. rewrite lookup_insert_ne by done.
    split_and!; try done.
    unfold stored_counts; simpl.
    destruct (server_counts s0 !! k') as [l'|] eqn:El'; [simpl|done].
    rewrite lookup_insert_ne; [done|].
    intros <-. destruct Hwf0 as [_ Hinj]. by apply Hk', (Hinj k' k l).
  - intros Htr Ht. rewrite Ht. simpl. rewrite <- (Hid Htr) at 3.
    apply parser_insert_id; [|done].
    by rewrite Hd.
Qed.

Lemma parse_eq now line k gid s r s' :
  parse_locals now line k gid s = (inr r, s') →
  parse now line k gid s = (inr r.2, s').
Proof.
  intros H. unfold parse_lifecycle_event. by rewrite (bind_inr _ _ _ _ _ H).
Qed.

(** ** [get_live_counts] and [reset_server_counts] *)

Lemma get_live_counts_spec k s :
  wf s →
  ∃ s0 l,
    initialize_server_tracking k s = (inr (), s0)
    ∧ wf s0
    ∧ server_counts s0 !! k = Some l
    ∧ heap s0 !! l = Some (counts_of s k)
    ∧ player_states s0 !! k = Some (sets_of s k)
    ∧ frame k s s0
    ∧ (tracked s k → s0 = s)
    ∧ get_live_counts k s
      = (inr (fresh (dom (heap s0))),
         set_heap <[fresh (dom (heap s0)) := counts_of s k]> s0).
Proof.
  intros Hwf.
  destruct (initialize_server_tracking_spec k s Hwf)
    as (s0 & l & Hinit & Hwf0 & Hl & Hd & Hst & Hfr & Hid).
  exists s0, l. split_and!; [done..|].
  unfold get_live_counts.
  rewrite (bind_inr _ _ _ _ _ Hinit).
  rewrite (bind_inr _ _ _ _ _ (getitem_server_counts_eq _ _ _ Hl)).
  by rewrite (bind_inr _ _ _ _ _ (deref_eq _ _ _ Hd)).
Qed.

(** Allocating a new object changes nothing that is stored. *)
Lemma stored_counts_alloc s d k :
  wf s →
  stored_counts (set_heap <[fresh (dom (heap s)) := d]> s) k = stored_counts s k.
Proof.
  intros [Hal _]. unfold stored_counts; simpl.
  destruct (server_counts s !! k) as [l|] eqn:El; [simpl|done].
  rewrite lookup_insert_ne; [done|].
  intros <-. apply Hal in El as [d' Hd']. by rewrite fresh_heap in Hd'.
Qed.

Lemma reset_server_counts_eq k s :
  reset_server_counts k s
  = (inr (), Parser (heap s) (delete k (server_counts s))
                    (delete k (player_states s))).
Proof.
  destruct s as [h sc ps]. unfold reset_server_counts. mred.
  destruct (decide (k ∈ dom sc)) as [Hsc|Hsc]; simpl;
    destruct (decide (k ∈ dom ps)) as [Hps|Hps]; simpl;
    repeat f_equal;
    try (apply not_elem_of_dom in Hsc; by rewrite delete_id);
    try (apply not_elem_of_dom in Hps; by rewrite delete_id).
Qed.

Lemma wf_reset k s :
  wf s → wf (Parser (heap s) (delete k (server_counts s))
                    (delete k (player_states s))).
Proof.
  intros [Hal Hinj]. split; simpl.
  - intros k' l' [_ H]%lookup_delete_Some. by eapply Hal.
  - intros k1 k2 l' [_ H1]%lookup_delete_Some [_ H2]%lookup_delete_Some.
    by eapply Hinj.
Qed.

Lemma wf_init : wf init.
Proof. split; simpl; intros *; by rewrite lookup_empty. Qed.

Lemma run_call_wf c s : wf s → wf (run_call build c s).
Proof.
  intros Hwf. destruct c as [now line k gid|k|k]; simpl.
  - destruct (parse_locals_facts now line k gid s Hwf) as (s' & Hp & Hwf' & _).
    by rewrite (parse_eq _ _ _ _ _ _ _ Hp).
  - destruct (get_live_counts_spec k s Hwf)
      as (s0 & l & _ & Hwf0 & _ & _ & _ & _ & _ & ->).
    simpl. by apply wf_set_heap.
  - rewrite reset_server_counts_eq. simpl. by apply wf_reset.
Qed.

Lemma run_wf cs s : wf s → wf (run build cs s).
Proof.
  revert s. induction cs as [|c cs IH]; intros s Hwf; [done|].
  simpl. apply IH. by apply run_call_wf.
Qed.

End CallFacts.

(** ** The transition *)

Lemma union_singleton_idem (p : string) (X : gset string) :
  {[p]} ∪ ({[p]} ∪ X) = {[p]} ∪ X.
Proof. by rewrite (assoc_L (∪)), (idemp_L (∪) {[p]}). Qed.

Lemma add_queued_idem p st : add_queued p (add_queued p st) = add_queued p st.
Proof. unfold add_queued; simpl. by rewrite union_singleton_idem. Qed.

Lemma add_joined_idem p st : add_joined p (add_joined p st) = add_joined p st.
Proof. unfold add_joined; simpl. by rewrite union_singleton_idem. Qed.

Lemma add_disconnected_pre_idem p st :
  add_disconnected_pre p (add_disconnected_pre p st) = add_disconnected_pre p st.
Proof. unfold add_disconnected_pre; simpl. by rewrite union_singleton_idem. Qed.

Lemma add_disconnected_post_idem p st :
  add_disconnected_post p (add_disconnected_post p st) = add_disconnected_post p st.
Proof. unfold add_disconnected_post; simpl. by rewrite union_singleton_idem. Qed.

Lemma recount_idem st d : recount st (recount st d) = recount st d.
Proof.
  unfold recount. apply map_eq. intros i.
  rewrite !lookup_insert. repeat case_decide; congruence.
Qed.

Lemma recount_queue st d : recount st d !! "queue_count" = Some (queue_formula st).
Proof. unfold recount. rewrite lookup_insert_ne by done. apply lookup_insert_eq. Qed.

Lemma recount_player st d : recount st d !! "player_count" = Some (player_formula st).
Proof. unfold recount. apply lookup_insert_eq. Qed.

Lemma good_zero_counts : good_counts zero_counts.
Proof. by exists 0, 0. Qed.

Lemma good_recount st d : good_counts d → good_counts (recount st d).
Proof.
  intros (q & p & -> & _ & _).
  exists (queue_formula st), (player_formula st). split_and!.
  - unfold recount. apply map_eq. intros i.
    rewrite !lookup_insert, !lookup_singleton. repeat case_decide; congruence.
  - apply Z.le_max_l.
  - apply Z.le_max_l.
Qed.

Section TransitionFacts.

Context {Embed File : Type}.
Variable build : string → embed_data → Embed * File.
Local Abbreviation step := (transition build).

Lemma transition_good now line v :
  good_counts v.2 → good_counts (step now line v).2.2.
Proof.
  intros Hv. unfold transition.
  repeat case_match; simpl; auto using good_recount.
Qed.

Lemma transition_sets_mono now line v :
  players_queued v.1 ⊆ players_queued (step now line v).2.1
  ∧ players_joined v.1 ⊆ players_joined (step now line v).2.1
  ∧ players_disconnected_pre v.1 ⊆ players_disconnected_pre (step now line v).2.1
  ∧ players_disconnected_post v.1 ⊆ players_disconnected_post (step now line v).2.1.
Proof.
  unfold transition.
  repeat case_match; simpl; split_and!; try done; apply union_subseteq_r.
Qed.

(** A second application of the same line changes nothing. *)
Lemma transition_idem now now' line v :
  (step now' line (step now line v).2).2 = (step now line v).2.
Proof.
  unfold transition.
  destruct (Re.search Patterns.queue_join line) as [m1|].
  { destruct (truthy _); simpl; [|done].
    by rewrite add_queued_idem, recount_idem. }
  destruct (Re.search Patterns.player_joined line) as [m2|].
  { simpl. by rewrite add_joined_idem, recount_idem. }
  destruct (Re.search Patterns.disconnect_post_join line) as [m3|].
  { destruct (decide (_ ∈ players_joined v.1)) as [Hj|Hj]; simpl.
    - rewrite decide_True by done. simpl.
      by rewrite add_disconnected_post_idem.
    - destruct (decide (_ ∈ players_queued v.1)) as [Hq|Hq]; simpl.
      + rewrite decide_False by done. rewrite decide_True by done. simpl.
        by rewrite add_disconnected_pre_idem, recount_idem.
      + rewrite decide_False by done. rewrite decide_False by done. simpl.
        by rewrite recount_idem. }
  destruct (Re.search Patterns.disconnect_pre_join line) as [m4|]; [|done].
  destruct (decide (str (Re.group m4 1) ∈ players_queued v.1
                    ∧ str (Re.group m4 1) ∉ players_joined v.1)) as [Hc|Hc];
    simpl.
  - rewrite decide_True by done. simpl.
    by rewrite add_disconnected_pre_idem, recount_idem.
  - by rewrite decide_False.
Qed.


End TransitionFacts.

(** ** Calls, seen through the views *)

Section Views.

Context {Embed File : Type}.
Variable build : string → embed_data → Embed * File.
Local Abbreviation step := (transition build).

Lemma frame_views k s s' k' :
  frame k s s' → k' ≠ k →
  sets_of s' k' = sets_of s k' ∧ counts_of s' k' = counts_of s k'.
Proof.
  intros Hfr Hk'. destruct (Hfr k' Hk') as (E1 & _ & E3).
  unfold sets_of, counts_of. by rewrite E1, E3.
Qed.

Lemma run_call_parse now line k gid s :
  wf s →
  parse_lifecycle_event_locals build now line k gid s
    = (inr (step now line (sets_of s k, counts_of s k)).1,
       run_call build (Parse now line k gid) s)
  ∧ sets_of (run_call build (Parse now line k gid) s) k
    = (step now line (sets_of s k, counts_of s k)).2.1
  ∧ counts_of (run_call build (Parse now line k gid) s) k
    = (step now line (sets_of s k, counts_of s k)).2.2
  ∧ tracked (run_call build (Parse now line k gid) s) k
  ∧ frame k s (run_call build (Parse now line k gid) s).
Proof.
  intros Hwf.
  destruct (parse_locals_facts build now line k gid s Hwf)
    as (s' & Hp & Hwf' & Hst & Hd & Hsc & Hfr & _).
  simpl. rewrite (parse_eq _ _ _ _ _ _ _ _ Hp). simpl.
  split_and!; try done;
    first [ by apply sets_of_Some | by apply counts_of_Some
          | split; [done | by rewrite Hst] ].
Qed.

Lemma run_call_get k s k' :
  wf s →
  sets_of (run_call build (GetLiveCounts k) s) k' = sets_of s k'
  ∧ counts_of (run_call build (GetLiveCounts k) s) k' = counts_of s k'.
Proof.
  intros Hwf.
  destruct (get_live_counts_spec k s Hwf)
    as (s0 & l & _ & Hwf0 & Hl & Hd & Hst & Hfr & _ & Hget).
  simpl. rewrite Hget. simpl.
  assert (sets_of s0 k' = sets_of s k' ∧ counts_of s0 k' = counts_of s k')
    as [E1 E2].
  { destruct (decide (k' = k)) as [->|Hne]; [|by apply (frame_views k)].
    split; [by apply sets_of_Some|].
    apply counts_of_Some. by rewrite (stored_counts_Some _ _ _ Hl). }
  rewrite <- E1, <- E2. split; [done|].
  unfold counts_of. by rewrite stored_counts_alloc.
Qed.

Lemma run_call_reset k s :
  run_call build (ResetServerCounts k) s
  = Parser (heap s) (delete k (server_counts s)) (delete k (player_states s)).
Proof. simpl. by rewrite reset_server_counts_eq. Qed.

Lemma frame_reset k s :
  frame k s (Parser (heap s) (delete k (server_counts s))
                    (delete k (player_states s))).
Proof.
  intros k' Hk'. unfold stored_counts; simpl.
  by rewrite !lookup_delete_ne.
Qed.

(** A call that is not a reset of [k] removes nothing from the sets of [k]. *)
Lemma run_call_sets_mono c k s :
  wf s → c ≠ ResetServerCounts k →
  players_queued (sets_of s k) ⊆ players_queued (sets_of (run_call build c s) k)
  ∧ players_joined (sets_of s k) ⊆ players_joined (sets_of (run_call build c s) k)
  ∧ players_disconnected_pre (sets_of s k)
      ⊆ players_disconnected_pre (sets_of (run_call build c s) k)
  ∧ players_disconnected_post (sets_of s k)
      ⊆ players_disconnected_post (sets_of (run_call build c s) k).
Proof.
  intros Hwf Hc. destruct c as [now line k0 gid|k0|k0].
  - destruct (run_call_parse now line k0 gid s Hwf) as (_ & E & _ & _ & Hfr).
    destruct (decide (k = k0)) as [->|Hne].
    + rewrite E. apply (transition_sets_mono build now line (_, _)).
    + destruct (frame_views _ _ _ _ Hfr Hne) as [-> _]. done.
  - destruct (run_call_get k0 s k Hwf) as [-> _]. done.
  - assert (k ≠ k0) as Hne by congruence.
    rewrite run_call_reset.
    destruct (frame_views _ _ _ _ (frame_reset k0 s) Hne) as [-> _]. done.
Qed.

(** Every call keeps the stored counters in shape. *)
Lemma run_call_good c s :
  wf s → (∀ k, good_counts (counts_of s k)) →
  ∀ k, good_counts (counts_of (run_call build c s) k).
Proof.
  intros Hwf Hgood k. destruct c as [now line k0 gid|k0|k0].
  - destruct (run_call_parse now line k0 gid s Hwf) as (_ & _ & E & _ & Hfr).
    destruct (decide (k = k0)) as [->|Hne].
    + rewrite E. apply (transition_good build now line (_, _)), Hgood.
    + destruct (frame_views _ _ _ _ Hfr Hne) as [_ ->]. apply Hgood.
  - destruct (run_call_get k0 s k Hwf) as [_ ->]. apply Hgood.
  - rewrite run_call_reset. destruct (decide (k = k0)) as [->|Hne].
    + unfold counts_of, stored_counts; simpl. rewrite lookup_delete_eq.
      apply good_zero_counts.
    + destruct (frame_views _ _ _ _ (frame_reset k0 s) Hne) as [_ ->].
      apply Hgood.
Qed.

Lemma run_good cs s :
  wf s → (∀ k, good_counts (counts_of s k)) →
  ∀ k, good_counts (counts_of (run build cs s) k).
Proof.
  revert s. induction cs as [|c cs IH]; intros s Hwf Hgood; [done|].
  simpl. apply IH; [by apply run_call_wf | by apply run_call_good].
Qed.

End Views.

(** * The claims *)

Section Claims.

Context {Embed File : Type}.
Variable build : string → embed_data → Embed * File.

Local Abbreviation parse_locals := (parse_lifecycle_event_locals build).
Local Abbreviation parse := (parse_lifecycle_event build).
Local Abbreviation step := (transition build).

(** The events [jq], [j2] and [d2] end with [_update_live_counts]: the
    stored counters are the formulas on the sets of the key. *)
Lemma events_other_than_d1_recount now line k gid s lc ret s' :
  wf s →
  parse_locals now line k gid s = (inr (lc, ret), s') →
  (local_event_type lc = Some "jq" ∧ truthy (local_player_id lc) = true)
  ∨ local_event_type lc = Some "j2"
  ∨ local_event_type lc = Some "d2" →
  counts_of s' k !! "queue_count" = Some (queue_formula (sets_of s' k))
  ∧ counts_of s' k !! "player_count" = Some (player_formula (sets_of s' k)).
Proof.
  intros Hwf Hp Hev.
  destruct (parse_locals_facts build now line k gid s Hwf)
    as (s1 & Hp1 & _ & Hst & Hd & _).
  rewrite Hp in Hp1. injection Hp1 as Hr ->.
  rewrite (sets_of_Some _ _ _ Hst), (counts_of_Some _ _ _ Hd).
  assert (lc = (step now line (sets_of s k, counts_of s k)).1.1) as ->
    by by rewrite <- Hr.
  clear Hp Hst Hd Hr. revert Hev.
  set (v := (sets_of s k, counts_of s k)). unfold transition.
  repeat case_match; simpl;
    intros [[? ?] | [? | ?]]; try congruence;
    by rewrite recount_queue, recount_player.
Qed.

(** The [d1] branch returns before [_update_live_counts]: the stored
    counters are those from before the line. *)
Lemma post_join_disconnect_keeps_counts now line k gid s m P :
  wf s →
  Re.search Patterns.queue_join line = None →
  Re.search Patterns.player_joined line = None →
  Re.search Patterns.disconnect_post_join line = Some m →
  Re.group m 1 = Some P →
  P ∈ players_joined (sets_of s k) →
  counts_of (parse_locals now line k gid s).2 k = counts_of s k.
Proof.
  intros Hwf E1 E2 E3 Hg Hj.
  destruct (parse_locals_facts build now line k gid s Hwf)
    as (s1 & -> & _ & _ & Hd & _). simpl.
  rewrite (counts_of_Some _ _ _ Hd). clear Hd.
  unfold transition. rewrite E1, E2, E3, Hg. simpl.
  by rewrite decide_True.
Qed.



(** C4, amended.  The method returns a payload exactly when the
    event is [j2], and then the one built from the join template, or
    [d1], and then the one built from the leave template; this holds
    in every state, so also for a player who is in the target set
    already.  For the events [jq] and [d2] and for lines without an
    event it returns [None].  It never raises. *)
Theorem C4_payload_iff_joined_or_left now line k gid s :
  wf s →
  ∃ lc ret s',
    parse_locals now line k gid s = (inr (lc, ret), s')
    ∧ parse now line k gid s = (inr ret, s')
    ∧ ((local_event_type lc = Some "j2"
        ∧ ∃ P, ret = Some (built build "player_join" (join_embed_data now P None)))
       ∨ (local_event_type lc = Some "d1"
          ∧ ∃ P, ret = Some (built build "player_leave" (leave_embed_data now P None)))
       ∨ ((local_event_type lc = Some "jq" ∨ local_event_type lc = Some "d2"
           ∨ local_event_type lc = None)
          ∧ ret = None)).
Proof.
  intros Hwf.
  destruct (parse_locals_facts build now line k gid s Hwf)
    as (s1 & Hp & _).
  set (v := (sets_of s k, counts_of s k)) in *.
  exists (step now line v).1.1, (step now line v).1.2, s1.
  split; [by destruct (step now line v).1|].
  split; [by apply parse_eq|].
  clear Hp. unfold transition.
  repeat case_match; simpl; eauto 10.
Qed.

Lemma views_init k : sets_of init k = empty_sets ∧ counts_of init k = zero_counts.
Proof.
  unfold sets_of, counts_of, stored_counts; simpl. by rewrite !lookup_empty.
Qed.

Lemma views_reset k s :
  sets_of (Parser (heap s) (delete k (server_counts s))
                  (delete k (player_states s))) k = empty_sets
  ∧ counts_of (Parser (heap s) (delete k (server_counts s))
                      (delete k (player_states s))) k = zero_counts.
Proof.
  unfold sets_of, counts_of, stored_counts; simpl. by rewrite !lookup_delete_eq.
Qed.


(** C6. After any sequence of calls on a new parser, the dictionary
    of counters of every key holds the two counters, and neither is
    negative. *)
Theorem C6_counters_never_negative (cs : list call) (k : string) :
  ∃ q p,
    counts_of (run build cs init) k = {[ "queue_count" := q; "player_count" := p ]}
    ∧ 0 ≤ q ∧ 0 ≤ p.
Proof.
  apply (run_good build cs init wf_init).
  intros k'. apply good_zero_counts.
Qed.

(** C7. A sequence of calls without a reset of the key [k] removes no
    player from any of the four sets of [k]. *)
Theorem C7_membership_is_monotone (cs : list call) k s P :
  wf s →
  Forall (λ c, c ≠ ResetServerCounts k) cs →
  (P ∈ players_queued (sets_of s k) →
     P ∈ players_queued (sets_of (run build cs s) k))
  ∧ (P ∈ players_joined (sets_of s k) →
     P ∈ players_joined (sets_of (run build cs s) k))
  ∧ (P ∈ players_disconnected_pre (sets_of s k) →
     P ∈ players_disconnected_pre (sets_of (run build cs s) k))
  ∧ (P ∈ players_disconnected_post (sets_of s k) →
     P ∈ players_disconnected_post (sets_of (run build cs s) k)).
Proof.
  intros Hwf Hcs. revert s Hwf.
  induction Hcs as [|c cs Hc _ IH]; intros s Hwf; [done|].
  simpl.
  destruct (IH _ (run_call_wf build c s Hwf)) as (I1 & I2 & I3 & I4).
  destruct (run_call_sets_mono build c k s Hwf Hc) as (M1 & M2 & M3 & M4).
  split_and!; intros HP; [apply I1, M1 | apply I2, M2 | apply I3, M3 | apply I4, M4];
    done.
Qed.

(** C8. Parsing the same line for the same key a second time leaves
    the sets and the counters of the key, and the whole parser
    state, as the first parse left them. *)
Theorem C8_same_line_twice now now' line k gid gid' s :
  wf s →
  sets_of (run build [Parse now line k gid; Parse now' line k gid'] s) k
    = sets_of (run build [Parse now line k gid] s) k
  ∧ counts_of (run build [Parse now line k gid; Parse now' line k gid'] s) k
    = counts_of (run build [Parse now line k gid] s) k
  ∧ run build [Parse now line k gid; Parse now' line k gid'] s
    = run build [Parse now line k gid] s.
Proof.
  intros Hwf.
  assert (run build [Parse now line k gid; Parse now' line k gid'] s
          = run build [Parse now line k gid] s) as ->; [|done].
  unfold run; cbn [foldl].
  destruct (run_call_parse build now line k gid s Hwf)
    as (_ & Est & Ed & Htr & _).
  set (s1 := run_call build (Parse now line k gid) s) in *.
  assert (wf s1) as Hwf1 by by apply run_call_wf.
  destruct (parse_locals_facts build now' line k gid' s1 Hwf1)
    as (s2 & Hp & _ & _ & _ & _ & _ & Hid).
  cbn [run_call]. rewrite (parse_eq _ _ _ _ _ _ _ _ Hp). simpl.
  apply Hid; [done|].
  rewrite Est, Ed, <- surjective_pairing.
  apply transition_idem.
Qed.



End Claims.

Section Concrete.

Import Sample.

(** C1, at the failing input.  After QueueJoin(A), QueueJoin(B),
    PlayerJoined(A) the stored counters are 1 and 1.  The disconnect
    of A is the event [d1]; after it the stored counters are still 1
    and 1, although the formula for the player count gives 0 on the
    sets.  The disconnect of B then stores 0 and 0. *)
Theorem C1_counters_stale_after_post_join_disconnect :
  counts_of s3 server = {[ "queue_count" := 1; "player_count" := 1 ]}
  ∧ (parse_lifecycle_event_locals factory 0 close_A server 42 s3).1
    = inr (Locals (Some "000A") (Some "d1") None, Some (Payload () ()))
  ∧ counts_of (run_call factory (parse_line close_A) s3) server
    = {[ "queue_count" := 1; "player_count" := 1 ]}
  ∧ queue_formula (sets_of (run_call factory (parse_line close_A) s3) server) = 1
  ∧ player_formula (sets_of (run_call factory (parse_line close_A) s3) server) = 0
  ∧ counts_of (run factory [parse_line close_A; parse_line close_B] s3) server
    = {[ "queue_count" := 0; "player_count" := 0 ]}.
Proof. split_and!; vm_compute; reflexivity. Qed.


(** C4 fails on a repeated registration line: 000A is in
    [players_joined] already, the line changes nothing in the parser,
    and the method returns a payload all the same. *)
Lemma C4_counterexample :
  "000A" ∈ players_joined (sets_of s2 server)
  ∧ run_call factory (parse_line joined_A) s2 = s2
  ∧ parse_lifecycle_event factory 0 joined_A server 42 s2
    = (inr (Some (Payload () ())), s2).
Proof. split_and!; vm_compute; reflexivity. Qed.

Lemma wf_sample cs : wf (run factory cs init).
Proof. apply run_wf, wf_init. Qed.



Lemma C4_witness :
  wf s2
  ∧ ∃ lc ret s',
      parse_lifecycle_event_locals factory 0 joined_A server 42 s2 = (inr (lc, ret), s')
      ∧ parse_lifecycle_event factory 0 joined_A server 42 s2 = (inr ret, s')
      ∧ ((local_event_type lc = Some "j2"
          ∧ ∃ P, ret = Some (built factory "player_join" (join_embed_data 0 P None)))
         ∨ (local_event_type lc = Some "d1"
            ∧ ∃ P, ret = Some (built factory "player_leave" (leave_embed_data 0 P None)))
         ∨ ((local_event_type lc = Some "jq" ∨ local_event_type lc = Some "d2"
             ∨ local_event_type lc = None)
            ∧ ret = None)).
Proof.
  split; [apply wf_sample|].
  apply (C4_payload_iff_joined_or_left factory 0 joined_A server 42 s2).
  apply wf_sample.
Defined.


Lemma C7_witness :
  wf s2
  ∧ Forall (λ c, c ≠ ResetServerCounts server)
      [parse_line close_A; GetLiveCounts server; ResetServerCounts other]
  ∧ "000A" ∈ players_joined (sets_of s2 server)
  ∧ "000A" ∈ players_joined
      (sets_of (run factory [parse_line close_A; GetLiveCounts server;
                             ResetServerCounts other] s2) server).
Proof.
  assert ("000A" ∈ players_joined (sets_of s2 server)) as Hj
    by (vm_compute; reflexivity).
  assert (Forall (λ c, c ≠ ResetServerCounts server)
            [parse_line close_A; GetLiveCounts server; ResetServerCounts other])
    as Hcs by (repeat (apply Forall_cons; split; [by vm_compute; intros [=]|]); constructor).
  split_and!; [apply wf_sample | exact Hcs | exact Hj |].
  destruct (C7_membership_is_monotone factory _ server s2 "000A" (wf_sample _) Hcs)
    as (_ & Hjoined & _ & _).
  exact (Hjoined Hj).
Defined.

Lemma C8_witness :
  wf init
  ∧ sets_of (run factory [Parse 0 queue_A server 42; Parse 5 queue_A server 42] init)
      server
    = sets_of (run factory [Parse 0 queue_A server 42] init) server
  ∧ counts_of (run factory [Parse 0 queue_A server 42; Parse 5 queue_A server 42] init)
      server
    = counts_of (run factory [Parse 0 queue_A server 42] init) server
  ∧ run factory [Parse 0 queue_A server 42; Parse 5 queue_A server 42] init
    = run factory [Parse 0 queue_A server 42] init.
Proof.
  split; [apply wf_init|].
  apply (C8_same_line_twice factory 0 5 queue_A server 42 42 init), wf_init.
Defined.



End Concrete.

(** * Further properties *)

(** ** Invariants of the reachable states *)

Section Reachable.

Context {Embed File : Type}.
Variable build : string → embed_data → Embed * File.
Local Abbreviation step := (transition build).

(** A property of the sets and counters of a key that holds on a new
    key and that the transition keeps holds for every key after every
    sequence of calls. *)
Lemma run_view_invariant (I : player_sets → counts → Prop) :
  I empty_sets zero_counts →
  (∀ now line v, I v.1 v.2 → I (step now line v).2.1 (step now line v).2.2) →
  ∀ cs s, wf s → (∀ k, I (sets_of s k) (counts_of s k)) →
  ∀ k, I (sets_of (run build cs s) k) (counts_of (run build cs s) k).
Proof.
  intros I0 Istep cs. induction cs as [|c cs IH]; intros s Hwf HI; [done|].
  simpl. apply IH; [by apply run_call_wf|].
  intros k. destruct c as [now line k0 gid|k0|k0].
  - destruct (run_call_parse build now line k0 gid s Hwf) as (_ & Es & Ec & _ & Hfr).
    destruct (decide (k = k0)) as [->|Hne].
    + rewrite Es, Ec. apply (Istep now line (_, _)), HI.
    + destruct (frame_views _ _ _ _ Hfr Hne) as [-> ->]. apply HI.
  - destruct (run_call_get build k0 s k Hwf) as [-> ->]. apply HI.
  - rewrite run_call_reset. destruct (decide (k = k0)) as [->|Hne].
    + destruct (views_reset k0 s) as [-> ->]. done.
    + destruct (frame_views _ _ _ _ (frame_reset k0 s) Hne) as [-> ->]. apply HI.
Qed.

Lemma reachable_view_invariant (I : player_sets → counts → Prop) :
  I empty_sets zero_counts →
  (∀ now line v, I v.1 v.2 → I (step now line v).2.1 (step now line v).2.2) →
  ∀ cs k, I (sets_of (run build cs init) k) (counts_of (run build cs init) k).
Proof.
  intros I0 Istep cs. apply run_view_invariant; [done..|apply wf_init|].
  intros k. by destruct (views_init k) as [-> ->].
Qed.

End Reachable.

(** ** What the groups capture *)

Section Captures.
Import Re.



Lemma lit_groups str s g s1 g1 : matches (lit str) s g s1 g1 → g1 = g.
Proof. intros. eapply plain_groups; [apply plain_lit | done]. Qed.




End Captures.

(** ** Counters and sets in the reachable states *)

Lemma len_nonneg X : 0 ≤ len X.
Proof. unfold len. lia. Qed.

Lemma len_add p X : len X ≤ len ({[p]} ∪ X).
Proof.
  unfold len. apply inj_le, subseteq_size, union_subseteq_r.
Qed.

Lemma player_formula_le_joined st : player_formula st ≤ len (players_joined st).
Proof.
  unfold player_formula.
  pose proof (len_nonneg (players_joined st)).
  pose proof (len_nonneg (players_disconnected_post st)). lia.
Qed.

Section Invariants.

Context {Embed File : Type}.
Variable build : string → embed_data → Embed * File.
Local Abbreviation step := (transition build).

(** X1. In every state reached from a new parser the stored queue
    count is the formula on the current sets.  The stored player
    count is never below its formula and never above the number of
    joined players. *)
Theorem X1_queue_count_exact_player_count_bounded (cs : list call) k :
  counts_of (run build cs init) k !! "queue_count"
    = Some (queue_formula (sets_of (run build cs init) k))
  ∧ ∃ p, counts_of (run build cs init) k !! "player_count" = Some p
         ∧ player_formula (sets_of (run build cs init) k) ≤ p
         ∧ p ≤ len (players_joined (sets_of (run build cs init) k)).
Proof.
  apply (reachable_view_invariant build (λ st d,
    d !! "queue_count" = Some (queue_formula st)
    ∧ ∃ p, d !! "player_count" = Some p
           ∧ player_formula st ≤ p ∧ p ≤ len (players_joined st))).
  { split; [done|]. exists 0. by vm_compute. }
  intros now line [st d] (Hq & p & Hp & Hlo & Hhi). simpl in *.
  assert (∀ st', recount st' d !! "queue_count" = Some (queue_formula st')
    ∧ ∃ p', recount st' d !! "player_count" = Some p'
            ∧ player_formula st' ≤ p' ∧ p' ≤ len (players_joined st')) as Hre.
  { intros st'. split; [apply recount_queue|].
    exists (player_formula st'). split; [apply recount_player|].
    split; [done | apply player_formula_le_joined]. }
  unfold transition. repeat case_match; cbn [fst snd]; try apply Hre.
  - split; [done|]. by exists p.
  - split; [done|]. exists p. split; [done|]. split; [|done].
    etrans; [|exact Hlo]. unfold player_formula; simpl.
    pose proof (len_add (str (Re.group g 1)) (players_disconnected_post st)).
    lia.
  - split; [done|]. by exists p.
  - split; [done|]. by exists p.
Qed.

(** X2. In every state reached from a new parser, a player in
    [players_disconnected_post] is in [players_joined] and a player in
    [players_disconnected_pre] is in [players_queued]; so the player
    formula needs no clamp: it is the number of players that joined
    and did not disconnect afterwards. *)
Theorem X2_leavers_were_members (cs : list call) k :
  players_disconnected_post (sets_of (run build cs init) k)
    ⊆ players_joined (sets_of (run build cs init) k)
  ∧ players_disconnected_pre (sets_of (run build cs init) k)
      ⊆ players_queued (sets_of (run build cs init) k)
  ∧ player_formula (sets_of (run build cs init) k)
    = len (players_joined (sets_of (run build cs init) k)
           ∖ players_disconnected_post (sets_of (run build cs init) k)).
Proof.
  cut (players_disconnected_post (sets_of (run build cs init) k)
         ⊆ players_joined (sets_of (run build cs init) k)
       ∧ players_disconnected_pre (sets_of (run build cs init) k)
           ⊆ players_queued (sets_of (run build cs init) k)).
  { intros [H1 H2]. split_and!; [done..|].
    unfold player_formula, len. rewrite size_difference by done.
    pose proof (subseteq_size _ _ H1). lia. }
  apply (reachable_view_invariant build (λ st _,
    players_disconnected_post st ⊆ players_joined st
    ∧ players_disconnected_pre st ⊆ players_queued st)).
  { split; done. }
  intros now line [st d] [H1 H2]. simpl in *.
  unfold transition. repeat case_match; simpl in *; split;
    first
      [ done
      | etrans; [eassumption | apply union_subseteq_r]
      | apply union_subseteq; split;
        [apply singleton_subseteq_l; first [done | by destruct_and?] | done] ].
Qed.



(** X4. In every state reached from a new parser a server key has a
    dictionary of counters exactly when it has its four sets. *)
Theorem X4_counters_iff_sets (cs : list call) k :
  is_Some (server_counts (run build cs init) !! k)
  ↔ is_Some (player_states (run build cs init) !! k).
Proof.
  cut (∀ s, wf s →
         (∀ k, is_Some (server_counts s !! k) ↔ is_Some (player_states s !! k)) →
         ∀ k, is_Some (server_counts (run build cs s) !! k)
              ↔ is_Some (player_states (run build cs s) !! k)).
  { intros H. apply H; [apply wf_init|]. intros k'. simpl.
    by rewrite !lookup_empty. }
  clear k. induction cs as [|c cs IH]; intros s Hwf Hs; [done|].
  simpl. apply IH; [by apply run_call_wf|].
  intros k. destruct c as [now line k0 gid|k0|k0].
  - destruct (run_call_parse build now line k0 gid s Hwf)
      as (_ & _ & _ & [Htr1 Htr2] & Hfr).
    destruct (decide (k = k0)) as [->|Hne]; [done|].
    destruct (Hfr k Hne) as (-> & -> & _). apply Hs.
  - destruct (get_live_counts_spec k0 s Hwf)
      as (s0 & l & _ & _ & Hl & _ & Hst & Hfr & _ & Hget).
    simpl. rewrite Hget. simpl.
    destruct (decide (k = k0)) as [->|Hne]; [by rewrite Hl, Hst|].
    destruct (Hfr k Hne) as (-> & -> & _). apply Hs.
  - rewrite run_call_reset. simpl.
    destruct (decide (k = k0)) as [->|Hne].
    + by rewrite !lookup_delete_eq.
    + rewrite !lookup_delete_ne by done. apply Hs.
Qed.

End Invariants.

(** ** The two join events and the unknown disconnect *)

Section Events.

Context {Embed File : Type}.
Variable build : string → embed_data → Embed * File.
Local Abbreviation parse_locals := (parse_lifecycle_event_locals build).
Local Abbreviation step := (transition build).




End Events.

(** ** The matcher finds every match *)

Section Complete.
Import Re.

Lemma star_keeps {A} p (k : list ascii → option A) s :
  is_Some (k s) → is_Some (star p k s).
Proof.
  intros Hk. destruct s as [|c s]; simpl; [done|].
  destruct (p c); [|done]. by destruct (star p k s).
Qed.

Lemma star_complete {A} p (k : list ascii → option A) pre s :
  Forall (λ c, p c = true) pre → is_Some (k s) → is_Some (star p k (pre ++ s)).
Proof.
  intros Hpre Hk. induction Hpre as [|c pre Hc _ IH]; simpl.
  - by apply star_keeps.
  - rewrite Hc. by destruct IH as [x ->].
Qed.

(** Backtracking is exhaustive: when [r] matches at [s] in some way
    that the continuation accepts, [exec] returns a result. *)
Lemma exec_complete r : ∀ s g k s' g',
  matches r s g s' g' → is_Some (k s' g') → is_Some (exec r s g k).
Proof.
  induction r as [|p|p|p|r1 IH1 r2 IH2|r1 IH1 r2 IH2|n r IH];
    intros s g k s' g'; simpl.
  - by intros [-> ->].
  - intros [(c & -> & Hc) ->] Hk. by rewrite Hc.
  - intros [(pre & -> & Hpre) ->] Hk. by apply star_complete.
  - intros [[-> | (c & -> & Hc)] ->] Hk.
    + destruct s as [|c s]; [done|].
      destruct (p c); [|done]. by destruct (k s g).
    + rewrite Hc. by destruct Hk as [x ->].
  - intros (s1 & g1 & H1 & H2) Hk.
    eapply IH1; [exact H1|]. by eapply IH2.
  - intros [H|H] Hk.
    + destruct (IH1 _ _ _ _ _ H Hk) as [x ->]. done.
    + destruct (exec r1 s g k); [done|]. by eapply IH2.
  - intros (g1 & H & ->) Hk. by eapply IH.
Qed.

Lemma search_from_complete r pre s :
  is_Some (match_at r s) → is_Some (search_from r (pre ++ s)).
Proof.
  intros Hs. induction pre as [|c pre IH]; simpl.
  - destruct s; simpl; by destruct Hs as [x ->].
  - by destruct (match_at r (c :: pre ++ s)).
Qed.

(** A result of [search] is a match at some position of the line. *)
Lemma search_from_position r s m :
  search_from r s = Some m →
  ∃ pre s0, s = pre ++ s0 ∧ match_at r s0 = Some m.
Proof.
  induction s as [|c s IH]; simpl.
  - destruct (match_at r []) eqn:H; [|done].
    intros [= ->]. by exists [], [].
  - destruct (match_at r (c :: s)) eqn:H.
    + intros [= ->]. by exists [], (c :: s).
    + intros (pre & s0 & -> & Hm)%IH. by exists (c :: pre), s0.
Qed.

(** A literal that is the concatenation of two. *)
Lemma lit_app a b s g s' g' :
  matches (lit (a +:+ b)) s g s' g' ↔
  ∃ s1, matches (lit a) s g s1 g ∧ matches (lit b) s1 g s' g'.
Proof.
  revert s. induction a as [|c a IH]; intros s; simpl.
  - split.
    + intros H. exists s. auto.
    + by intros (s1 & [-> _] & H).
  - split.
    + intros (s1 & g1 & [Hc ->] & H). apply IH in H as (s2 & H2 & H3).
      exists s2. split; [|done]. by exists s1, g.
    + intros (s2 & (s1 & g1 & [Hc ->] & H2) & H3).
      exists s1, g. split; [done|]. apply IH. by exists s2.
Qed.

(** X8. Every line that the pattern-3 regex (disconnect, EOS-tagged)
    matches is also matched by the pattern-4 regex (disconnect, PS5 or
    EOS, optional bar). *)
Theorem X8_pattern_3_within_pattern_4 line m :
  search Patterns.disconnect_post_join line = Some m →
  is_Some (search Patterns.disconnect_pre_join line).
Proof.
  unfold search. intros (pre & s0 & -> & H)%search_from_position.
  apply search_from_complete.
  apply exec_sound in H as (s' & g' & H & _).
  cbn [Patterns.disconnect_post_join cat foldr matches] in H.
  destruct H as (s1 & g1 & H1 & s2 & g2 & H2 & s3 & g3 & H3
                   & s4 & g4 & H4 & -> & ->).
  pose proof (lit_groups _ _ _ _ _ H1) as ->.
  destruct H2 as [H2 ->].
  pose proof (lit_groups _ _ _ _ _ H3) as ->.
  change "UniqueId: EOS:|" with ("UniqueId: " +:+ "EOS" +:+ ":" +:+ "|") in H3.
  apply lit_app in H3 as (t1 & Ha & H3).
  apply lit_app in H3 as (t2 & Hb & H3).
  apply lit_app in H3 as (t3 & Hc & Hd).
  eapply (exec_complete _ _ _ _ s4 g4); [|done].
  cbn [Patterns.disconnect_pre_join cat foldr matches].
  exists s1, ∅. split; [done|].
  exists s2, ∅. split; [done|].
  exists t1, ∅. split; [done|].
  exists t2, ∅. split; [by right|].
  exists t3, ∅. split; [done|].
  exists s3, ∅. split.
  { split; [|done]. right. simpl in Hd.
    destruct Hd as (u & gu & [(c & -> & Hc') ->] & -> & _). eauto. }
  by exists s4, g4.
Qed.

End Complete.

(** ** The record shapes are recognised *)

Section Records.
Import Re.

Local Abbreviation la := list_ascii_of_string.

Lemma la_app a b : la (a +:+ b) = la a ++ la b.
Proof. induction a as [|c a IH]; simpl; [done|]. by rewrite IH. Qed.

Lemma chr_refl a : chr a a = true.
Proof. unfold chr. apply N.eqb_refl. Qed.

Lemma exec_cat_cons r rs s g k :
  exec (cat (r :: rs)) s g k = exec r s g (λ s1 g1, exec (cat rs) s1 g1 k).
Proof. done. Qed.

Lemma exec_cat_nil s g k : exec (cat []) s g k = k s g.
Proof. done. Qed.

(** A literal consumes its own text. *)
Lemma exec_lit str rest g k : exec (lit str) (la str ++ rest) g k = k rest g.
Proof.
  induction str as [|c str IH]; simpl; [done|]. by rewrite chr_refl.
Qed.

(** What a literal consumes has the length of the literal and agrees
    with it character by character, up to case. *)
Lemma lit_shape str s g s' g' :
  matches (lit str) s g s' g' →
  ∃ t, s = t ++ s' ∧ Forall2 (λ a c, chr a c = true) (la str) t.
Proof.
  revert s. induction str as [|a str IH]; intros s; simpl.
  - intros [-> _]. by exists [].
  - intros (s1 & g1 & [(c & -> & Hc) ->] & H).
    apply IH in H as (t & -> & Ht). exists (c :: t). split; [done|].
    by constructor.
Qed.

(** The greedy star takes a whole run of the class when the text
    after the run does not start with the class and the continuation
    accepts there. *)
Lemma star_stop {A} p (k : list ascii → option A) cs rest x :
  Forall (λ c, p c = true) cs →
  match rest with c :: _ => p c = false | [] => True end →
  k rest = Some x →
  star p k (cs ++ rest) = Some x.
Proof.
  intros Hcs Hrest Hk. induction Hcs as [|c cs Hc _ IH]; simpl.
  - destruct rest as [|c rest]; simpl; [done|]. by rewrite Hrest.
  - by rewrite Hc, IH.
Qed.

(** When the continuation rejects every later position, the star
    ends where it began. *)
Lemma star_only {A} p (k : list ascii → option A) t :
  (∀ a' t', a' ≠ [] → t = a' ++ t' → k t' = None) →
  star p k t = k t.
Proof.
  induction t as [|c t IH]; intros Hfail; simpl; [done|].
  destruct (p c); [|done].
  rewrite IH.
  - by rewrite (Hfail [c] t).
  - intros a' t' Ha' ->. by apply (Hfail (c :: a') t').
Qed.

(** The greedy star backtracks to the last position that the
    continuation accepts. *)
Lemma star_last {A} p (k : list ascii → option A) a b x :
  Forall (λ c, p c = true) a →
  (∀ a' t, a' ≠ [] → b = a' ++ t → k t = None) →
  k b = Some x →
  star p k (a ++ b) = Some x.
Proof.
  intros Ha Hfail Hk.
  induction Ha as [|c a Hc _ IH]; simpl.
  - by rewrite star_only.
  - by rewrite Hc, IH.
Qed.

(** [search] returns the match at the first position that has one. *)
Lemma search_from_first r pre s m :
  (∀ a t, t ≠ [] → pre = a ++ t → match_at r (t ++ s) = None) →
  match_at r s = Some m →
  search_from r (pre ++ s) = Some m.
Proof.
  intros Hpre Hs. induction pre as [|c pre IH]; simpl.
  - destruct s; simpl; by rewrite Hs.
  - pose proof (Hpre [] (c :: pre) ltac:(done) eq_refl) as E.
    cbn [app] in E. rewrite E.
    apply IH. intros a t Ht ->. by apply (Hpre (c :: a) t).
Qed.

(** No match of a pattern that starts with the letter [x] begins
    inside a text without that letter. *)
Lemma no_match_before x str rs pre s :
  forallb (λ c, negb (chr x c)) pre = true →
  ∀ a t, t ≠ [] → pre = a ++ t →
    match_at (cat (lit (String x str) :: rs)) (t ++ s) = None.
Proof.
  intros Hpre a t Ht ->.
  destruct (match_at _ (t ++ s)) as [m|] eqn:E; [exfalso|done].
  apply exec_sound in E as (s' & g' & H & _).
  cbn [cat foldr matches lit] in H.
  destruct H as (s1 & g1 & (s2 & g2 & [(c & Hc & Hx) _] & _) & _).
  destruct t as [|c' t]; [done|]. injection Hc as -> _.
  rewrite forallb_app in Hpre. apply andb_true_iff in Hpre as [_ Hpre].
  simpl in Hpre. by rewrite Hx in Hpre.
Qed.

Lemma word_id_chars id :
  word_id id = true →
  ∃ c cs, la id = c :: cs ∧ word c = true ∧ Forall (λ c, word c = true) cs.
Proof.
  destruct id as [|c id]; [done|]. simpl.
  intros [Hc Hcs]%andb_true_iff. exists c, (la id). split_and!; [done..|].
  apply List.Forall_forall. intros x Hx.
  by apply (proj1 (forallb_forall _ _) Hcs).
Qed.

Lemma consumed_id id rest : consumed (la id ++ rest) rest = id.
Proof. by rewrite consumed_app, string_of_list_ascii_of_string. Qed.

(** The group [(\w+)] at the text [id ++ rest], where [id] is a word
    and [rest] does not go on with a word character: the group takes
    [id], when the continuation accepts [rest]. *)
Lemma exec_word_group n id rest g k x :
  word_id id = true →
  match rest with c :: _ => word c = false | [] => True end →
  k rest (<[n := id]> g) = Some x →
  exec (Group n (Plus word)) (la id ++ rest) g k = Some x.
Proof.
  intros Hid Hrest Hk.
  destruct (word_id_chars id Hid) as (c & cs & E & Hc & Hcs).
  cbn [exec Plus]. rewrite E. cbn [app]. rewrite Hc.
  apply star_stop; [done..|].
  change (c :: cs ++ rest) with ((c :: cs) ++ rest).
  by rewrite <- E, consumed_id.
Qed.

(** The registration record in a line. *)
Lemma registered_record_search pre id post :
  without "L" pre = true →
  word_id id = true →
  search Patterns.player_joined (pre +:+ registered_record id +:+ post)
    = Some {[ 1%nat := id ]}.
Proof.
  intros Hpre Hid. unfold search, registered_record.
  rewrite !la_app. apply search_from_first.
  { by apply (no_match_before "L"). }
  unfold match_at, Patterns.player_joined.
  rewrite <- !app_assoc, exec_cat_cons, exec_lit. cbv beta.
  rewrite exec_cat_cons. apply exec_word_group; [done..|]. cbv beta.
  by rewrite exec_cat_cons, exec_lit.
Qed.

(** X9. The registration record of a player is recognised for every
    identifier: in a line made of a prefix without the letter L (a
    time stamp, say), the record [LogOnline: Warning: Player |<id>
    successfully registered!] with [id] a non-empty word, and any
    text after it, the pattern-2 regex finds the record and captures
    exactly [id]. *)
Theorem X9_registered_record_is_recognised pre id post :
  without "L" pre = true →
  word_id id = true →
  search Patterns.player_joined (pre +:+ registered_record id +:+ post)
    = Some {[ 1%nat := id ]}.
Proof. apply registered_record_search. Qed.

Lemma exec_Star p s g k : exec (Star p) s g k = star p (λ s', k s' g) s.
Proof. done. Qed.

(** The literal bar matches the bar only. *)
Lemma chr_bar c : chr "|" c = true → c = "|"%char.
Proof. destruct c as [[] [] [] [] [] [] [] []]; by vm_compute. Qed.

(** A text with one occurrence of [c] splits around it in one way. *)
Lemma sole_sep (c : ascii) x y x' y' :
  c ∉ x → c ∉ y → x ++ c :: y = x' ++ c :: y' → x' = x.
Proof.
  intros Hx Hy. revert x' Hx. induction x as [|a x IH]; intros x' Hx E.
  - destruct x' as [|a' x']; [done|]. exfalso.
    injection E as -> ->. apply Hy, elem_of_app. right. by left.
  - destruct x' as [|a' x'].
    + exfalso. injection E as -> _. apply Hx. by left.
    + injection E as -> E. f_equal. apply IH; [|done].
      intros ?. apply Hx. by right.
Qed.

Lemma word_no_bar cs : Forall (λ c, word c = true) cs → "|"%char ∉ cs.
Proof.
  intros Hcs Hin. by apply (proj1 (Forall_forall _ _) Hcs) in Hin.
Qed.

(** A literal that ends with the bar: what it consumes ends with the
    bar, after as many characters as the literal has before it. *)
Lemma lit_bar_shape str s g s' g' :
  matches (lit (str +:+ "|")) s g s' g' →
  ∃ t, s = t ++ "|"%char :: s' ∧ length t = length (la str).
Proof.
  intros (s1 & H1 & H2)%lit_app.
  apply lit_shape in H1 as (t & -> & Ht).
  simpl in H2. destruct H2 as (s2 & g2 & [(c & -> & Hc) _] & -> & _).
  apply chr_bar in Hc as ->. exists t. split; [done|].
  symmetry. by eapply Forall2_length.
Qed.

(** The channel-close record in a line. *)
Lemma close_record_search pre mid id :
  without "U" pre = true →
  one_line mid = true →
  word_id id = true →
  search Patterns.disconnect_post_join (pre +:+ close_record mid id)
    = Some {[ 1%nat := id ]}.
Proof.
  intros Hpre Hmid Hid. unfold search, close_record.
  rewrite !la_app. apply search_from_first.
  { by apply (no_match_before "U"). }
  unfold match_at, Patterns.disconnect_post_join.
  rewrite exec_cat_cons, exec_lit. cbv beta.
  rewrite exec_cat_cons, exec_Star.
  destruct (word_id_chars id Hid) as (c & cs & E & Hc & Hcs).
  apply star_last.
  - apply List.Forall_forall. intros x Hx.
    by apply (proj1 (forallb_forall _ _) Hmid).
  - intros a' t Ha' Eq.
    destruct (exec _ t ∅ _) as [m|] eqn:Ex; [exfalso|done].
    apply exec_sound in Ex as (s' & g' & H & _).
    cbn [cat foldr matches] in H. destruct H as (s1 & g1 & H1 & _).
    change "UniqueId: EOS:|" with ("UniqueId: EOS:" +:+ "|") in H1.
    apply lit_bar_shape in H1 as (t1 & -> & Hlen).
    change (la "UniqueId: EOS:|") with (la "UniqueId: EOS:" ++ "|"%char :: []) in Eq.
    rewrite <- app_assoc in Eq. cbn [app] in Eq.
    rewrite (app_assoc a' t1) in Eq.
    apply sole_sep in Eq.
    + apply (f_equal length) in Eq. rewrite length_app in Eq.
      destruct a'; [done|]. simpl in *. lia.
    + apply (bool_decide_unpack _). by vm_compute.
    + rewrite E. by apply (word_no_bar (c :: cs)), Forall_cons.
  - rewrite exec_cat_cons, exec_lit. cbv beta.
    rewrite exec_cat_cons.
    rewrite <- (app_nil_r (la id)).
    apply exec_word_group; [done..|]. by cbv beta.
Qed.

(** X10. The channel-close record is recognised for every identifier:
    in a line made of a prefix without the letter U, the head of the
    record, any text [mid] without a line feed, the field
    [UniqueId: EOS:|] and a non-empty word [id] at the end of the
    line, the pattern-3 regex captures exactly [id], also when [mid]
    holds other [UniqueId] fields: the last one counts. *)
Theorem X10_close_record_is_recognised pre mid id :
  without "U" pre = true →
  one_line mid = true →
  word_id id = true →
  search Patterns.disconnect_post_join (pre +:+ close_record mid id)
    = Some {[ 1%nat := id ]}.
Proof. apply close_record_search. Qed.

End Records.

(** ** Whole lines *)

Section Lines.
Import Re.

Context {Embed File : Type}.
Variable build : string → embed_data → Embed * File.
Local Abbreviation parse_locals := (parse_lifecycle_event_locals build).
Local Abbreviation parse := (parse_lifecycle_event build).
Local Abbreviation la := list_ascii_of_string.

Lemma matches_suffix r : ∀ s g s' g', matches r s g s' g' → ∃ t, s = t ++ s'.
Proof.
  induction r as [|p|p|p|r1 IH1 r2 IH2|r1 IH1 r2 IH2|n r IH];
    intros s g s' g'; simpl.
  - intros [-> _]. by exists [].
  - intros [(c & -> & _) _]. by exists [c].
  - intros [(pre & -> & _) _]. by exists pre.
  - intros [[-> | (c & -> & _)] _]; [by exists [] | by exists [c]].
  - intros (s1 & g1 & H1 & H2).
    destruct (IH1 _ _ _ _ H1) as [t1 ->]. destruct (IH2 _ _ _ _ H2) as [t2 ->].
    exists (t1 ++ t2). by rewrite app_assoc.
  - intros [H|H]; eauto.
  - intros (g1 & H & _). eauto.
Qed.

(** The text of a match holds every character of every literal of
    the pattern, up to case. *)
Lemma lit_needs x str s g s' g' :
  x ∈ la str → matches (lit str) s g s' g' → ∃ c, c ∈ s ∧ chr x c = true.
Proof.
  intros Hx (t & -> & Ht)%lit_shape.
  apply list_elem_of_lookup in Hx as [i Hi].
  destruct (Forall2_lookup_l _ _ _ _ _ Ht Hi) as (c & Hc & Hxc).
  exists c. split; [|done]. apply elem_of_app. left.
  by eapply list_elem_of_lookup_2.
Qed.

Lemma cat_needs x str rs :
  lit str ∈ rs → x ∈ la str →
  ∀ s g s' g', matches (cat rs) s g s' g' → ∃ c, c ∈ s ∧ chr x c = true.
Proof.
  intros Hin Hx. induction rs as [|r rs IH]; [by apply elem_of_nil in Hin|].
  intros s g s' g'; cbn [cat foldr matches]; intros (s1 & g1 & H1 & H2).
  apply elem_of_cons in Hin as [<-|Hin].
  - by eapply lit_needs.
  - destruct (IH Hin _ _ _ _ H2) as (c & Hc & Hxc).
    destruct (matches_suffix _ _ _ _ _ H1) as [t ->].
    exists c. split; [|done]. apply elem_of_app. by right.
Qed.

Lemma search_from_none r s :
  (∀ a t, s = a ++ t → match_at r t = None) → search_from r s = None.
Proof.
  induction s as [|c s IH]; intros H; simpl.
  - by rewrite (H [] []).
  - rewrite (H [] (c :: s) eq_refl). apply IH.
    intros a t ->. by apply (H (c :: a) t).
Qed.

Lemma without_elem x s c : without x s = true → c ∈ la s → chr x c = false.
Proof.
  unfold without. intros H Hc%list_elem_of_In. apply negb_true_iff.
  by apply (proj1 (forallb_forall _ _) H).
Qed.

(** A pattern does not match a line that lacks a character of one of
    its literals. *)
Lemma search_without x str rs line :
  lit str ∈ rs → x ∈ la str → without x line = true →
  search (cat rs) line = None.
Proof.
  intros Hin Hx Hline. apply search_from_none. intros a t E.
  destruct (match_at (cat rs) t) as [m|] eqn:Hm; [exfalso|done].
  apply exec_sound in Hm as (s' & g' & Hm & _).
  destruct (cat_needs x str rs Hin Hx _ _ _ _ Hm) as (c & Hc & Hxc).
  rewrite (without_elem x line c) in Hxc; [done..|].
  rewrite E. apply elem_of_app. by right.
Qed.

Lemma without_app x a b : without x (a +:+ b) = without x a && without x b.
Proof. unfold without. by rewrite la_app, forallb_app. Qed.

Lemma free_of_elem cs s a :
  free_of cs s = true → a ∈ la cs → without a s = true.
Proof.
  unfold free_of. intros H Ha%list_elem_of_In.
  by apply (proj1 (forallb_forall _ _) H).
Qed.


Lemma word_not_chr x c :
  x ∈ ["|"; "/"; "!"; " "]%char → word c = true → chr x c = false.
Proof.
  intros Hx Hc.
  destruct c as [[] [] [] [] [] [] [] []]; try (by vm_compute in Hc);
    repeat (apply elem_of_cons in Hx as [->|Hx]; [done|]);
    by apply elem_of_nil in Hx.
Qed.

Lemma word_without x id :
  x ∈ ["|"; "/"; "!"; " "]%char → word_id id = true → without x id = true.
Proof.
  intros Hx (c & cs & E & Hc & Hcs)%word_id_chars. unfold without. rewrite E.
  apply forallb_forall. intros d Hd%list_elem_of_In. apply negb_true_iff.
  apply word_not_chr; [done|].
  apply elem_of_cons in Hd as [->|Hd]; [done|].
  by apply (proj1 (Forall_forall _ _) Hcs).
Qed.

Lemma chr_space c : chr " " c = true → c = " "%char.
Proof. destruct c as [[] [] [] [] [] [] [] []]; by vm_compute. Qed.

Lemma lit_space_shape str s g s' g' :
  matches (lit (str +:+ " ")) s g s' g' →
  ∃ t, s = t ++ " "%char :: s' ∧ length t = length (la str).
Proof.
  intros (s1 & H1 & H2)%lit_app.
  apply lit_shape in H1 as (t & -> & Ht).
  simpl in H2. destruct H2 as (s2 & g2 & [(c & -> & Hc) _] & -> & _).
  apply chr_space in Hc as ->. exists t. split; [done|].
  symmetry. by eapply Forall2_length.
Qed.

Lemma exec_Alt_l r1 r2 s g k x :
  exec r1 s g k = Some x → exec (Alt r1 r2) s g k = Some x.
Proof. simpl. by intros ->. Qed.

Lemma exec_Opt_skip p s g k :
  match s with c :: _ => p c = false | [] => True end →
  exec (Opt p) s g k = k s g.
Proof. destruct s as [|c s]; simpl; [done|]. by intros ->. Qed.



Lemma ps5_close_record_without x pre mid id :
  x ∈ ["/"; "!"; "|"]%char →
  without x pre = true → without x mid = true → word_id id = true →
  without x (pre +:+ ps5_close_record mid id) = true.
Proof.
  intros Hx Hpre Hmid Hid. unfold ps5_close_record.
  repeat (apply elem_of_cons in Hx as [->|Hx];
    [rewrite !without_app, Hpre, Hmid, (word_without _ id);
       [done | apply (bool_decide_unpack _); by vm_compute | done] |]).
  by apply elem_of_nil in Hx.
Qed.



(** Pattern 3 needs a bar. *)
Lemma disconnect_post_join_needs_bar line :
  without "|" line = true → search Patterns.disconnect_post_join line = None.
Proof.
  apply (search_without "|" "UniqueId: EOS:|").
  - do 2 apply list_elem_of_further. apply list_elem_of_here.
  - apply (bool_decide_unpack _). by vm_compute.
Qed.

Lemma ps5_close_record_pre_join pre mid id :
  without "U" pre = true → one_line mid = true → word_id id = true →
  search Patterns.disconnect_pre_join (pre +:+ ps5_close_record mid id)
  = Some {[ 1%nat := id ]}.
Proof.
  intros Hpre Hmid Hid. unfold search, ps5_close_record.
  rewrite !la_app. apply search_from_first.
  { by apply (no_match_before "U"). }
  unfold match_at, Patterns.disconnect_pre_join.
  rewrite exec_cat_cons, exec_lit. cbv beta.
  rewrite exec_cat_cons, exec_Star.
  destruct (word_id_chars id Hid) as (c & cs & E & Hc & Hcs).
  apply star_last.
  - apply List.Forall_forall. intros x Hx.
    by apply (proj1 (forallb_forall _ _) Hmid).
  - intros a' t Ha' Eq.
    destruct (exec _ t ∅ _) as [m|] eqn:Ex; [exfalso|done].
    apply exec_sound in Ex as (s' & g' & H & _).
    cbn [cat foldr matches] in H. destruct H as (s1 & g1 & H1 & _).
    change "UniqueId: " with ("UniqueId:" +:+ " ") in H1.
    apply lit_space_shape in H1 as (t1 & -> & Hlen).
    change (la "UniqueId: PS5:")
      with (la "UniqueId:" ++ " "%char :: la "PS5:") in Eq.
    rewrite <- app_assoc in Eq. cbn [app] in Eq.
    rewrite (app_assoc a' t1) in Eq.
    change (" "%char :: "P"%char :: "S"%char :: "5"%char :: ":"%char :: la id)
      with (" "%char :: (la "PS5:" ++ la id)) in Eq.
    apply sole_sep in Eq.
    + apply (f_equal length) in Eq. rewrite length_app in Eq.
      destruct a'; [done|]. simpl in *. lia.
    + apply (bool_decide_unpack _). by vm_compute.
    + intros [H|H]%elem_of_app.
      * revert H. apply (bool_decide_unpack _). by vm_compute.
      * assert (" "%char ∈ ["|"; "/"; "!"; " "]%char) as Hsp
          by (apply (bool_decide_unpack _); by vm_compute).
        pose proof (without_elem " " id " "%char
                      (word_without " " id Hsp Hid) H) as Hs.
        by vm_compute in Hs.
  - rewrite exec_cat_cons.
    change (la "UniqueId: PS5:") with (la "UniqueId: " ++ la "PS5" ++ la ":").
    rewrite <- !app_assoc, exec_lit. cbv beta.
    rewrite exec_cat_cons. apply exec_Alt_l.
    rewrite exec_lit. cbv beta.
    rewrite exec_cat_cons, exec_lit. cbv beta.
    rewrite exec_cat_cons, exec_Opt_skip.
    2:{ rewrite E. destruct (chr "|" c) eqn:Hb; [|done].
        apply chr_bar in Hb as ->. done. }
    rewrite exec_cat_cons.
    rewrite <- (app_nil_r (la id)).
    apply exec_word_group; [done..|]. by cbv beta.
Qed.

(** X16. A channel-close record with a PS5 identifier goes to the
    fourth pattern: in a line made of a prefix without the letter U,
    the head of the record, any text [mid] without a line feed, the
    field [UniqueId: PS5:] and a non-empty word [id] at the end of the
    line, with no bar in the prefix and in [mid], the pattern-3 regex
    finds nothing and the pattern-4 regex captures exactly [id]. *)
Theorem X16_ps5_close_record_is_left_to_pattern_4 pre mid id :
  free_of "U|" pre = true →
  without "|" mid = true →
  one_line mid = true →
  word_id id = true →
  search Patterns.disconnect_post_join (pre +:+ ps5_close_record mid id) = None
  ∧ search Patterns.disconnect_pre_join (pre +:+ ps5_close_record mid id)
    = Some {[ 1%nat := id ]}.
Proof.
  intros Hpre Hmid Hline Hid. split.
  - apply disconnect_post_join_needs_bar.
    apply ps5_close_record_without; [apply (bool_decide_unpack _); by vm_compute| |done..].
    apply (free_of_elem _ _ _ Hpre), (bool_decide_unpack _). by vm_compute.
  - apply ps5_close_record_pre_join; [|done..].
    apply (free_of_elem _ _ _ Hpre), (bool_decide_unpack _). by vm_compute.
Qed.



End Lines.

(** ** Voice channels *)

Section Voice.

Implicit Types (names : list string) (edits : list (nat * string)).



Lemma rename_from_prefix edit_ok new j names :
  (∃ rest, rename_from (λ _, true) new j names
           = rename_from edit_ok new j names ++ rest)
  ∧ (rename_from edit_ok new j names = rename_from (λ _, true) new j names
     ∨ ∃ front e, rename_from edit_ok new j names = front ++ [e]
                  ∧ edit_ok e.1 = false).
Proof.
  revert j. induction names as [|name rest IH]; intros j; simpl.
  - split; [by exists [] | by left].
  - destruct (IH (S j)) as [[more Hmore] Hlast].
    destruct (shows_counts name); [|by split; [exists more|]].
    destruct (decide (name ≠ new)); [|by split; [exists more|]].
    destruct (edit_ok j) eqn:Hok.
    + split; [exists more; by rewrite Hmore|].
      destruct Hlast as [->|(front & e & -> & He)]; [by left|].
      right. by exists ((j, new) :: front), e.
    + split; [by eexists|]. right. by exists [], (j, new).
Qed.

(** X12. A failing call of [edit] ends the method: the requests made
    are an initial part of those made when no call fails, and they
    are all of them or end with the call that failed. *)
Theorem X12_failing_edit_ends_the_loop get_guild edit_ok key pc qc :
  (∃ rest, voice_channel_edits get_guild (λ _, true) key pc qc
           = voice_channel_edits get_guild edit_ok key pc qc ++ rest)
  ∧ (voice_channel_edits get_guild edit_ok key pc qc
     = voice_channel_edits get_guild (λ _, true) key pc qc
     ∨ ∃ front e, voice_channel_edits get_guild edit_ok key pc qc = front ++ [e]
                  ∧ edit_ok e.1 = false).
Proof.
  unfold voice_channel_edits.
  destruct (py_int (first_field key)) as [gid|]; [|by split; [exists []|left]].
  destruct (get_guild gid) as [names|]; [|by split; [exists []|left]].
  apply rename_from_prefix.
Qed.




End Voice.

(** ** Decimal numbers *)

Section Decimal.

Local Abbreviation la := list_ascii_of_string.
Local Abbreviation read := (foldl (λ a c, 10 * a + digit_value c)%N).
Local Abbreviation digit := (λ c, is_digit c = true).

Lemma digit_cases c :
  is_digit c = true →
  c ∈ ["0"; "1"; "2"; "3"; "4"; "5"; "6"; "7"; "8"; "9"]%char.
Proof.
  destruct c as [[] [] [] [] [] [] [] []]; intros H;
    try (by vm_compute in H); apply (bool_decide_unpack _); by vm_compute.
Qed.

Lemma digit_facts c :
  is_digit c = true →
  Re.space c = false ∧ Ascii.eqb c "_" = false ∧ Ascii.eqb c " " = false.
Proof.
  intros H%digit_cases. repeat (apply elem_of_cons in H as [->|H]; [done|]).
  by apply elem_of_nil in H.
Qed.

Lemma pretty_N_char_digit x :
  (x < 10)%N →
  is_digit (pretty_N_char x) = true ∧ digit_value (pretty_N_char x) = x.
Proof.
  intros H.
  assert (x = 0 ∨ x = 1 ∨ x = 2 ∨ x = 3 ∨ x = 4 ∨ x = 5 ∨ x = 6 ∨ x = 7
          ∨ x = 8 ∨ x = 9)%N as Hx by lia.
  destruct_or!; subst; done.
Qed.

Lemma digits_from_digits acc ds :
  Forall digit ds → digits_from acc ds = Some (read acc ds).
Proof.
  intros H. revert acc. induction H as [|c ds Hc _ IH]; intros acc; [done|].
  simpl. rewrite Hc. apply IH.
Qed.

Lemma pretty_N_go_shape x s :
  ∃ ds, la (pretty_N_go x s) = ds ++ la s
        ∧ Forall digit ds
        ∧ ((0 < x)%N → ds ≠ [])
        ∧ ∀ acc, read acc ds = (acc * 10 ^ N.of_nat (length ds) + x)%N.
Proof.
  revert s. induction (N.lt_wf_0 x) as [x _ IH]; intros s.
  assert (x = 0 ∨ 0 < x)%N as [->|Hx] by lia.
  - exists []. split_and!; [done|constructor|lia|]. intros acc. simpl. lia.
  - rewrite pretty_N_go_step by done.
    destruct (pretty_N_char_digit (x `mod` 10)) as [Hd Hv];
      [by apply N.mod_lt|].
    destruct (IH (x `div` 10)%N (N.div_lt x 10 Hx eq_refl)
                 (String (pretty_N_char (x `mod` 10)) s))
      as (ds & E & F & _ & R).
    exists (ds ++ [pretty_N_char (x `mod` 10)]). split_and!.
    + by rewrite E, <-app_assoc.
    + apply Forall_app. split; [done|]. by repeat constructor.
    + intros _. by destruct ds.
    + intros acc. rewrite foldl_app, R. simpl. rewrite Hv.
      rewrite length_app, Nat.add_1_r, Nat2N.inj_succ, N.pow_succ_r'.
      pose proof (N.div_mod' x 10). lia.
Qed.

Lemma pretty_N_shape (x : N) :
  la (pretty x) ≠ [] ∧ Forall digit (la (pretty x))
  ∧ read 0%N (la (pretty x)) = x.
Proof.
  unfold pretty, pretty_N. destruct (decide (x = 0)%N) as [->|Hx].
  - split_and!; [done|by repeat constructor|done].
  - destruct (pretty_N_go_shape x "") as (ds & E & F & Hne & R).
    simpl in E. rewrite app_nil_r in E. rewrite E. split_and!.
    + apply Hne. lia.
    + done.
    + rewrite R. lia.
Qed.

Lemma lstrip_id s : Forall (λ c, Re.space c = false) s → lstrip s = s.
Proof. intros [|c s' Hc _]; [done|]. simpl. by rewrite Hc. Qed.

Lemma strip_id s : Forall (λ c, Re.space c = false) s → strip s = s.
Proof.
  intros H. unfold strip. rewrite (lstrip_id s H), lstrip_id.
  - apply rev_involutive.
  - apply List.Forall_rev, H.
Qed.

Lemma py_int_unsigned c ds :
  is_digit c = true → strip (c :: ds) = c :: ds →
  py_int (string_of_list_ascii (c :: ds)) = Z.of_N <$> digits (c :: ds).
Proof.
  intros Hc Hstrip. unfold py_int.
  rewrite list_ascii_of_string_of_list_ascii, Hstrip.
  apply digit_cases in Hc.
  repeat (apply elem_of_cons in Hc as [->|Hc]; [done|]).
  by apply elem_of_nil in Hc.
Qed.

Lemma py_int_digits ds :
  ds ≠ [] → Forall digit ds →
  py_int (string_of_list_ascii ds) = Some (Z.of_N (read 0%N ds)).
Proof.
  intros Hne H.
  assert (strip ds = ds) as Hstrip.
  { apply strip_id. eapply Forall_impl; [exact H|].
    by intros c (? & _)%digit_facts. }
  pose proof (digits_from_digits 0%N ds H) as Hd.
  destruct H as [|c ds' Hc H]; [done|].
  rewrite (py_int_unsigned c ds' Hc Hstrip). unfold digits. by rewrite Hc, Hd.
Qed.

Lemma py_int_minus ds :
  ds ≠ [] → Forall digit ds →
  py_int (String "-" (string_of_list_ascii ds)) = Some (- Z.of_N (read 0%N ds)).
Proof.
  intros Hne H. unfold py_int. simpl la.
  rewrite list_ascii_of_string_of_list_ascii, strip_id.
  - destruct H as [|c ds' Hc H]; [done|].
    assert (digits (c :: ds') = Some (read 0%N (c :: ds'))) as ->; [|done].
    unfold digits. rewrite Hc. apply digits_from_digits. by constructor.
  - constructor; [done|].
    eapply Forall_impl; [exact H|]. by intros c (? & _)%digit_facts.
Qed.

Lemma py_int_pretty (z : Z) : py_int (pretty z) = Some z.
Proof.
  destruct z as [|p|p]; [done|..].
  - change (pretty (Z.pos p)) with (pretty (N.pos p)).
    destruct (pretty_N_shape (N.pos p)) as (Hne & H & R).
    rewrite <-(string_of_list_ascii_of_string (pretty (N.pos p))).
    rewrite (py_int_digits _ Hne H), R. done.
  - change (pretty (Z.neg p)) with (String "-" (pretty (N.pos p))).
    destruct (pretty_N_shape (N.pos p)) as (Hne & H & R).
    rewrite <-(string_of_list_ascii_of_string (pretty (N.pos p))).
    rewrite (py_int_minus _ Hne H), R. done.
Qed.

Lemma pretty_Z_chars (z : Z) :
  Forall (λ c, Ascii.eqb c "_" = false ∧ Ascii.eqb c " " = false)
         (la (pretty z)).
Proof.
  assert (∀ x : N, Forall (λ c, Ascii.eqb c "_" = false ∧ Ascii.eqb c " " = false)
                          (la (pretty x))) as HN.
  { intros x. destruct (pretty_N_shape x) as (_ & H & _).
    eapply Forall_impl; [exact H|]. by intros c (_ & ? & ?)%digit_facts. }
  destruct z as [|p|p].
  - by repeat constructor.
  - apply (HN (N.pos p)).
  - change (pretty (Z.neg p)) with (String "-" (pretty (N.pos p))).
    simpl. constructor; [done|apply HN].
Qed.

Lemma first_field_app a b :
  Forall (λ c, Ascii.eqb c "_" = false) (la a) →
  first_field (a +:+ String "_" b) = a.
Proof.
  induction a as [|c a IH]; simpl; [done|]. intros [Hc H]%Forall_cons.
  by rewrite Hc, IH.
Qed.





(** X15. The guild id is read back from a server key of the form
    [guild_id_server_id]: the text before the first underscore of
    the key, converted by [int], is the guild id, whatever the
    server id. *)
Theorem X15_guild_id_of_server_key (guild_id : Z) (server_id : string) :
  py_int (first_field (pretty guild_id +:+ "_" +:+ server_id)) = Some guild_id.
Proof.
  change (pretty guild_id +:+ "_" +:+ server_id)
    with (pretty guild_id +:+ String "_" server_id).
  rewrite first_field_app; [apply py_int_pretty|].
  eapply Forall_impl; [apply pretty_Z_chars|]. by intros c [? _].
Qed.

End Decimal.

(** ** The theorems at sample inputs *)

Section Examples.

Import Sample.





Lemma X8_witness :
  Re.search Patterns.disconnect_post_join close_A = Some {[ 1%nat := "000A" ]}
  ∧ is_Some (Re.search Patterns.disconnect_pre_join close_A).
Proof.
  assert (Re.search Patterns.disconnect_post_join close_A
          = Some {[ 1%nat := "000A" ]}) as H
    by (vm_compute; reflexivity).
  exact (conj H (X8_pattern_3_within_pattern_4 close_A _ H)).
Defined.

Lemma X9_witness :
  without "L" "[12:00] " = true
  ∧ word_id "000A" = true
  ∧ Re.search Patterns.player_joined
      ("[12:00] " +:+ registered_record "000A" +:+ " (1 of 8)")
    = Some {[ 1%nat := "000A" ]}.
Proof.
  assert (without "L" "[12:00] " = true) as H1 by (vm_compute; reflexivity).
  assert (word_id "000A" = true) as H2 by (vm_compute; reflexivity).
  exact (conj H1 (conj H2
          (X9_registered_record_is_recognised "[12:00] " "000A" " (1 of 8)" H1 H2))).
Defined.

Lemma X10_witness :
  without "U" "[12:05] " = true
  ∧ one_line ". UniqueId: EOS:|9999 ChIndex == 0. " = true
  ∧ word_id "000A" = true
  ∧ Re.search Patterns.disconnect_post_join
      ("[12:05] " +:+ close_record ". UniqueId: EOS:|9999 ChIndex == 0. " "000A")
    = Some {[ 1%nat := "000A" ]}.
Proof.
  assert (without "U" "[12:05] " = true) as H1 by (vm_compute; reflexivity).
  assert (one_line ". UniqueId: EOS:|9999 ChIndex == 0. " = true) as H2
    by (vm_compute; reflexivity).
  assert (word_id "000A" = true) as H3 by (vm_compute; reflexivity).
  exact (conj H1 (conj H2 (conj H3
          (X10_close_record_is_recognised "[12:05] "
             ". UniqueId: EOS:|9999 ChIndex == 0. " "000A" H1 H2 H3)))).
Defined.




Lemma X16_witness :
  free_of "U|" "[12:05] " = true
  ∧ without "|" ". ChIndex == 0. " = true
  ∧ one_line ". ChIndex == 0. " = true
  ∧ word_id "000B" = true
  ∧ Re.search Patterns.disconnect_post_join
      ("[12:05] " +:+ ps5_close_record ". ChIndex == 0. " "000B") = None
  ∧ Re.search Patterns.disconnect_pre_join
      ("[12:05] " +:+ ps5_close_record ". ChIndex == 0. " "000B")
    = Some {[ 1%nat := "000B" ]}.
Proof.
  assert (free_of "U|" "[12:05] " = true) as H1 by (vm_compute; reflexivity).
  assert (without "|" ". ChIndex == 0. " = true) as H2 by (vm_compute; reflexivity).
  assert (one_line ". ChIndex == 0. " = true) as H3 by (vm_compute; reflexivity).
  assert (word_id "000B" = true) as H4 by (vm_compute; reflexivity).
  exact (conj H1 (conj H2 (conj H3 (conj H4
          (X16_ps5_close_record_is_left_to_pattern_4 "[12:05] " ". ChIndex == 0. "
             "000B" H1 H2 H3 H4))))).
Defined.



End Examples.
